(** * ComfyUIClient: the execution-tracking coordinator of [src/client.ts]

    A shallow embedding of [ComfyUIClient.getImages] and of the socket
    listeners installed by [ComfyUIClient.connect], as a transition system
    driven by the Node.js event loop: socket events and HTTP replies arrive
    one at a time, and each [await] of the source is a point where a running
    listener is parked until its reply comes in. *)

From Stdlib Require Import SpecFloat.
From stdpp Require Import gmap strings list.

Local Open Scope string_scope.
Local Open Scope list_scope.
Set Warnings "-register-all".

(** ** JavaScript values *)

Module JS.

(** What [JSON.parse] can return, together with [undefined] (the value of a
    missing property).  Numbers are IEEE 754 doubles. *)
Inductive value :=
| VUndefined
| VNull
| VBool (b : bool)
| VNumber (x : spec_float)
| VString (s : string)
| VArray (elems : list value)
| VObject (props : list (string * value)).

(** [!v] is [negb (ToBoolean v)]: the falsy values are [undefined], [null],
    [false], [+0], [-0], [NaN] and the empty string. *)
Definition ToBoolean (v : value) : bool :=
  match v with
  | VUndefined | VNull => false
  | VBool b => b
  | VNumber (S754_zero _) | VNumber S754_nan => false
  | VNumber _ => true
  | VString s => negb (String.eqb s "")
  | VArray _ | VObject _ => true
  end.

(** [v === s] for a string [s]: no coercion, so only a string value can be
    equal to it. *)
Definition strict_eq (v : value) (s : string) : bool :=
  match v with
  | VString t => String.eqb t s
  | _ => false
  end.

Fixpoint own_property (props : list (string * value)) (key : string) : value :=
  match props with
  | [] => VUndefined
  | (k, v) :: props' => if String.eqb k key then v else own_property props' key
  end.

(** The exceptions that reach the [catch] of [onMessage], and the one thrown
    by [getImages] itself.  An [AxiosError] carries the configuration of the
    request that failed; [config] is instantiated below. *)
Inductive exn (config : Type) :=
| Error (message : string)
| SyntaxError
| TypeError
| AxiosError (request : config) (status : option nat).
Arguments Error {config} message.
Arguments SyntaxError {config}.
Arguments TypeError {config}.
Arguments AxiosError {config} request status.

(** [v.key] for the four property names the listener reads ([type], [data],
    [node], [prompt_id]); none of them is inherited from a prototype, so on a
    primitive or an array the lookup yields [undefined].  Reading a property
    of [undefined] or [null] throws. *)
Definition get {config} (v : value) (key : string) : exn config + value :=
  match v with
  | VUndefined | VNull => inl TypeError
  | VObject props => inr (own_property props key)
  | _ => inr VUndefined
  end.

End JS.
Export JS.

(** ** Wire types (types.ts) *)

Definition Buffer := list Byte.byte.

(** Modelled from the spec: types.ts is not part of the sources at hand.  An
    artifact reference is the triple (filename, subfolder, storage type). *)
Record ImageRef := { filename : string; subfolder : string; type : string }.

Record ImageContainer := { buffer : Buffer; image : ImageRef }.

(** Modelled from the spec: a history record maps each output node to its
    outputs; [images] is optional ([nodeOutput.images] may be undefined). *)
Record NodeOutput := { images : option (list ImageRef) }.

(** [outputs] lists the properties of [history.outputs] in the order of
    [Object.keys]. *)
Record HistoryEntry := { outputs : list (string * NodeOutput) }.

Record QueuePromptResult := { prompt_id : string }.

(** The job graph is opaque: it is only forwarded. *)
Definition Prompt := value.

Inductive request :=
| axios_post (url : string) (prompt : Prompt) (client_id : string)
| axios_get (url : string) (params : option ImageRef).

Definition error := exn request.

(** The payload of a text frame as the listener reads it: the value of
    [JSON.parse(data.toString())], or [None] when that call throws. *)
Definition RawData := option value.

Definition JSON_parse (data : RawData) : error + value :=
  match data with
  | Some message => inr message
  | None => inl SyntaxError
  end.

(** What the server answers to a request in flight. *)
Inductive reply :=
| failed (status : option nat)
| queue_ok (res : QueuePromptResult)
| history_ok (res : gmap string HistoryEntry)
| image_ok (data : Buffer).

(** ** The socket and the client object *)

Inductive event_name := ev_open | ev_close | ev_error | ev_message.

(** The callbacks of the source: the four arrow functions registered by
    [connect], and the closure [onMessage] of [getImages], which captures
    [promptId]. *)
Inductive listener :=
| connect_on_open
| connect_on_close
| connect_on_error
| connect_on_message
| onMessage (promptId : string).

Global Instance event_name_eq_dec : EqDecision event_name.
Proof. solve_decision. Defined.
Global Instance listener_eq_dec : EqDecision listener.
Proof. solve_decision. Defined.

(** An event emitter: the registered listeners, oldest first. *)
Record WebSocket := { listeners : list (event_name * listener) }.

Definition ws_on (name : event_name) (l : listener) (sock : WebSocket) : WebSocket :=
  {| listeners := listeners sock ++ [(name, l)] |}.

Fixpoint remove_first (x : event_name * listener) (ls : list (event_name * listener)) :=
  match ls with
  | [] => []
  | y :: ls' => if decide (x = y) then ls' else y :: remove_first x ls'
  end.

(** [removeListener] drops at most one instance, the most recently added. *)
Definition ws_off (name : event_name) (l : listener) (sock : WebSocket) : WebSocket :=
  {| listeners := reverse (remove_first (name, l) (reverse (listeners sock))) |}.

Record ComfyUIClient := {
  serverAddress : string;
  clientId : string;
  useHttps : bool;
  useWss : bool;
  ws : option WebSocket;
  protocol : string;
  wsProtocol : string }.

Definition constructor (serverAddress clientId : string) (useHttps useWss : bool) : ComfyUIClient :=
  {| serverAddress := serverAddress;
     clientId := clientId;
     useHttps := useHttps;
     useWss := useWss;
     ws := None;
     protocol := if useHttps then "https" else "http";
     wsProtocol := if useWss then "wss" else "ws" |}.

Definition with_ws (o : option WebSocket) (c : ComfyUIClient) : ComfyUIClient :=
  {| serverAddress := serverAddress c;
     clientId := clientId c;
     useHttps := useHttps c;
     useWss := useWss c;
     ws := o;
     protocol := protocol c;
     wsProtocol := wsProtocol c |}.

(** ** The state of the event loop *)

(** A promise is settled at most once. *)
Inductive promise :=
| Pending
| Fulfilled
| Rejected (reason : error).

(** An activation parked at an [await], with the local variables it needs to
    go on. *)
Inductive task :=
| await_queuePrompt (prompt : Prompt)
| await_getHistory (promptId : string)
| await_getImage (promptId : string) (todo : list (string * NodeOutput))
    (nodeId : string) (imagesOutput : list ImageContainer)
    (image : ImageRef) (rest : list ImageRef).

(** Lines written by the logger, whose level is [info]. *)
Inductive log_entry :=
| Connecting_to_url (url : string)
| Connection_open
| Connection_closed
| WebSockets_error (err : error)
| Done_executing_prompt (donePromptId : value).

(** [opened] is the promise returned by [connect], [outcome] the one returned
    by [getImages].  [resolve(outputImages)] hands the caller the object
    itself, so what the caller holds after fulfilment is the current content
    of [outputImages].  [sent] lists the HTTP requests issued so far. *)
Record World := {
  this : ComfyUIClient;
  opened : promise;
  outcome : promise;
  outputImages : gmap string (list ImageContainer);
  inflight : list task;
  sent : list request;
  logged : list log_entry }.

Definition returned (w : World) : option (gmap string (list ImageContainer)) :=
  match outcome w with
  | Fulfilled => Some (outputImages w)
  | _ => None
  end.

(** ** Effects: a state and exception monad over [World] *)

Definition M (A : Type) : Type := World -> World * (error + A).

Definition ret {A} (a : A) : M A := fun w => (w, inr a).

Definition throw {A} (e : error) : M A := fun w => (w, inl e).

Definition bind {A B} (m : M A) (k : A -> M B) : M B :=
  fun w =>
    match m w with
    | (w', inr a) => k a w'
    | (w', inl e) => (w', inl e)
    end.

Definition lift {A} (r : error + A) : M A := fun w => (w, r).

Definition modify (f : World -> World) : M unit := fun w => (f w, inr tt).

Definition read {A} (f : World -> A) : M A := fun w => (w, inr (f w)).

Declare Scope M_scope.
Delimit Scope M_scope with M.
Bind Scope M_scope with M.
Notation "x <- m ;; k" := (bind m (fun x => k))
  (at level 100, m at next level, k at level 200, right associativity) : M_scope.
Notation "m ;; k" := (bind m (fun _ => k))
  (at level 100, k at level 200, right associativity) : M_scope.
Local Open Scope M_scope.

Definition set_this (c : ComfyUIClient) (w : World) : World :=
  {| this := c; opened := opened w; outcome := outcome w;
     outputImages := outputImages w; inflight := inflight w;
     sent := sent w; logged := logged w |}.

Definition set_opened (p : promise) (w : World) : World :=
  {| this := this w; opened := p; outcome := outcome w;
     outputImages := outputImages w; inflight := inflight w;
     sent := sent w; logged := logged w |}.

Definition set_outcome (p : promise) (w : World) : World :=
  {| this := this w; opened := opened w; outcome := p;
     outputImages := outputImages w; inflight := inflight w;
     sent := sent w; logged := logged w |}.

Definition set_outputImages (o : gmap string (list ImageContainer)) (w : World) : World :=
  {| this := this w; opened := opened w; outcome := outcome w;
     outputImages := o; inflight := inflight w;
     sent := sent w; logged := logged w |}.

Definition set_inflight (ts : list task) (w : World) : World :=
  {| this := this w; opened := opened w; outcome := outcome w;
     outputImages := outputImages w; inflight := ts;
     sent := sent w; logged := logged w |}.

Definition set_sent (rs : list request) (w : World) : World :=
  {| this := this w; opened := opened w; outcome := outcome w;
     outputImages := outputImages w; inflight := inflight w;
     sent := rs; logged := logged w |}.

Definition set_logged (ls : list log_entry) (w : World) : World :=
  {| this := this w; opened := opened w; outcome := outcome w;
     outputImages := outputImages w; inflight := inflight w;
     sent := sent w; logged := ls |}.

(** [logger.info] and [logger.error] write a line; [logger.debug] is below
    the configured level and writes nothing. *)
Definition logger_info (e : log_entry) : M unit :=
  modify (fun w => set_logged (logged w ++ [e]) w).

Definition logger_error (e : log_entry) : M unit :=
  modify (fun w => set_logged (logged w ++ [e]) w).

Definition logger_debug : M unit := ret tt.

(** Issuing a request; the reply comes back later as an event. *)
Definition axios (r : request) : M unit :=
  modify (fun w => set_sent (sent w ++ [r]) w).

(** [resolve] and [reject] of the promise returned by [getImages]: only the
    first call has an effect. *)
Definition resolve (w : World) : World :=
  match outcome w with
  | Pending => set_outcome Fulfilled w
  | _ => w
  end.

Definition reject (err : error) (w : World) : World :=
  match outcome w with
  | Pending => set_outcome (Rejected err) w
  | _ => w
  end.

Definition resolve_opened (w : World) : World :=
  match opened w with
  | Pending => set_opened Fulfilled w
  | _ => w
  end.

Definition reject_opened (err : error) (w : World) : World :=
  match opened w with
  | Pending => set_opened (Rejected err) w
  | _ => w
  end.

(** [this.ws?.on(name, l)] and [this.ws?.off(name, l)]: nothing happens when
    [this.ws] is undefined. *)
Definition this_ws_on (name : event_name) (l : listener) : M unit :=
  modify (fun w =>
    match ws (this w) with
    | Some sock => set_this (with_ws (Some (ws_on name l sock)) (this w)) w
    | None => w
    end).

Definition this_ws_off (name : event_name) (l : listener) : M unit :=
  modify (fun w =>
    match ws (this w) with
    | Some sock => set_this (with_ws (Some (ws_off name l sock)) (this w)) w
    | None => w
    end).

(** ** One-shot requests *)

Definition queuePrompt_request (c : ComfyUIClient) (prompt : Prompt) : request :=
  axios_post (protocol c +:+ "://" +:+ serverAddress c +:+ "/prompt") prompt (clientId c).

(** The path gets the job identifier only when it is truthy. *)
Definition getHistory_request (c : ComfyUIClient) (promptId : string) : request :=
  axios_get
    (protocol c +:+ "://" +:+ serverAddress c +:+ "/history"
       +:+ (if String.eqb promptId "" then "" else "/" +:+ promptId))
    None.

Definition getImage_request (c : ComfyUIClient) (image : ImageRef) : request :=
  axios_get (protocol c +:+ "://" +:+ serverAddress c +:+ "/view") (Some image).

Definition queuePrompt (prompt : Prompt) : M unit :=
  c <- read this ;; axios (queuePrompt_request c prompt).

Definition getHistory (promptId : string) : M unit :=
  c <- read this ;; axios (getHistory_request c promptId).

Definition getImage (image : ImageRef) : M unit :=
  c <- read this ;; axios (getImage_request c image).

(** The request a parked activation is waiting for. *)
Definition awaited (c : ComfyUIClient) (t : task) : request :=
  match t with
  | await_queuePrompt prompt => queuePrompt_request c prompt
  | await_getHistory promptId => getHistory_request c promptId
  | await_getImage _ _ _ _ image _ => getImage_request c image
  end.

(** ** connect and disconnect *)

Definition disconnect (w : World) : World :=
  match ws (this w) with
  | Some _ => set_this (with_ws None (this w)) w
  | None => w
  end.

(** The socket as [connect] leaves it: a new emitter with the four listeners
    registered in source order. *)
Definition connected_socket : WebSocket :=
  ws_on ev_message connect_on_message
    (ws_on ev_error connect_on_error
       (ws_on ev_close connect_on_close
          (ws_on ev_open connect_on_open {| listeners := [] |}))).

(** [connect()] without a timeout: a fresh socket replaces [this.ws]. *)
Definition connect (w : World) : World :=
  let w1 := disconnect w in
  let url := wsProtocol (this w1) +:+ "://" +:+ serverAddress (this w1)
               +:+ "/ws?clientId=" +:+ clientId (this w1) in
  let w2 := set_logged (logged w1 ++ [Connecting_to_url url]) w1 in
  set_opened Pending (set_this (with_ws (Some connected_socket) (this w2)) w2).

(** ** getImages *)

(** The loop over [Object.keys(history.outputs)], run until the next [await]
    or to the end.  A node with an [images] list that is empty is assigned
    the empty list at once; one with images parks at the first [getImage]. *)
Fixpoint populate (promptId : string) (nodes : list (string * NodeOutput)) : M (option task) :=
  match nodes with
  | [] =>
      this_ws_off ev_message (onMessage promptId) ;;
      modify resolve ;;
      ret None
  | (nodeId, nodeOutput) :: nodes' =>
      match images nodeOutput with
      | Some [] =>
          modify (fun w => set_outputImages (<[nodeId := []]> (outputImages w)) w) ;;
          populate promptId nodes'
      | Some (image :: rest) =>
          getImage image ;;
          ret (Some (await_getImage promptId nodes' nodeId [] image rest))
      | None => populate promptId nodes'
      end
  end.

(** The body of [onMessage] inside [try], up to its first [await]. *)
Definition onMessage_try (promptId : string) (data : RawData) : M (option task) :=
  message <- lift (JSON_parse data) ;;
  type <- lift (get message "type") ;;
  if strict_eq type "executing" then
    messageData <- lift (get message "data") ;;
    node <- lift (get messageData "node") ;;
    if negb (ToBoolean node) then
      donePromptId <- lift (get messageData "prompt_id") ;;
      logger_info (Done_executing_prompt donePromptId) ;;
      prompt_id <- lift (get messageData "prompt_id") ;;
      if strict_eq prompt_id promptId then
        getHistory promptId ;;
        ret (Some (await_getHistory promptId))
      else ret None
    else ret None
  else ret None.

(** What an activation does when the reply it awaits arrives; [None] when the
    reply is not of the kind the activation awaits. *)
Definition resume (t : task) (r : reply) : option (M (option task)) :=
  match t, r with
  | _, failed status =>
      Some (c <- read this ;; throw (AxiosError (awaited c t) status))
  | await_queuePrompt _, queue_ok queue =>
      let promptId := prompt_id queue in
      Some (modify (set_outputImages ∅) ;;
            this_ws_on ev_message (onMessage promptId) ;;
            ret None)
  | await_getHistory promptId, history_ok historyRes =>
      Some (match historyRes !! promptId with
            | Some history => populate promptId (outputs history)
            | None => throw TypeError
            end)
  | await_getImage promptId nodes nodeId imagesOutput image rest, image_ok buffer =>
      let imagesOutput' := (imagesOutput ++ [{| buffer := buffer; image := image |}])%list in
      Some (match rest with
            | [] =>
                modify (fun w => set_outputImages (<[nodeId := imagesOutput']> (outputImages w)) w) ;;
                populate promptId nodes
            | image' :: rest' =>
                getImage image' ;;
                ret (Some (await_getImage promptId nodes nodeId imagesOutput' image' rest'))
            end)
  | _, _ => None
  end.

(** [try { ... } catch (err) { return reject(err) }], and likewise an
    exception escaping the [async] body of [getImages]: it rejects the same
    promise. *)
Definition try_catch (body : M (option task)) (w : World) : World * option task :=
  match body w with
  | (w', inr parked) => (w', parked)
  | (w', inl err) => (reject err w', None)
  end.

(** [getImages(prompt)] up to its first [await].  The call returns a promise
    of its own, pending at first. *)
Definition getImages (prompt : Prompt) (w : World) : World :=
  let w := set_outcome Pending w in
  match ws (this w) with
  | None =>
      reject (Error "WebSocket client is not connected. Please call connect() before interacting.") w
  | Some _ =>
      match queuePrompt prompt w with
      | (w', _) => set_inflight (inflight w' ++ [await_queuePrompt prompt]) w'
      end
  end.

(** ** The event loop *)

Inductive event :=
| ws_open
| ws_close
| ws_error (err : error)
| ws_message (data : RawData) (isBinary : bool)
| http_reply (i : nat) (r : reply).

Definition name_of (ev : event) : option event_name :=
  match ev with
  | ws_open => Some ev_open
  | ws_close => Some ev_close
  | ws_error _ => Some ev_error
  | ws_message _ _ => Some ev_message
  | http_reply _ _ => None
  end.

(** Calling one listener with the arguments of the event. *)
Definition call (l : listener) (ev : event) (w : World) : World :=
  match l, ev with
  | connect_on_open, ws_open =>
      resolve_opened (fst (logger_info Connection_open w))
  | connect_on_close, ws_close =>
      fst (logger_info Connection_closed w)
  | connect_on_error, ws_error err =>
      reject_opened err (fst (logger_error (WebSockets_error err) w))
  | connect_on_message, ws_message _ _ =>
      fst (logger_debug w)
  | onMessage promptId, ws_message data isBinary =>
      if isBinary then w
      else
        match try_catch (onMessage_try promptId data) w with
        | (w', Some t) => set_inflight (inflight w' ++ [t]) w'
        | (w', None) => w'
        end
  | _, _ => w
  end.

Definition registered (name : event_name) (sock : WebSocket) : list listener :=
  snd <$> filter (fun p => fst p = name) (listeners sock).

(** [emit] calls the listeners registered for the event, in registration
    order, from a copy of the list taken before the first call. *)
Definition emit (name : event_name) (ev : event) (w : World) : World :=
  match ws (this w) with
  | Some sock => fold_left (fun w' l => call l ev w') (registered name sock) w
  | None => w
  end.

(** The [i]-th activation parks again as [t'], or is over. *)
Definition park (i : nat) (res : World * option task) : World :=
  match res with
  | (w', Some t') => set_inflight (<[i := t']> (inflight w')) w'
  | (w', None) => set_inflight (delete i (inflight w')) w'
  end.

(** Delivery of the reply to the [i]-th parked activation. *)
Definition deliver (i : nat) (r : reply) (w : World) : World :=
  match inflight w !! i with
  | Some t =>
      match resume t r with
      | Some body => park i (try_catch body w)
      | None => w
      end
  | None => w
  end.

Definition step (w : World) (ev : event) : World :=
  match ev with
  | http_reply i r => deliver i r w
  | _ =>
      match name_of ev with
      | Some name => emit name ev w
      | None => w
      end
  end.

Definition run (w : World) (evs : list event) : World := fold_left step evs w.

(** A client that has just been constructed. *)
Definition boot (c : ComfyUIClient) : World :=
  {| this := c; opened := Pending; outcome := Pending; outputImages := ∅;
     inflight := []; sent := []; logged := [] |}.

(** ** Vocabulary of the specification *)

(** A completion event for job [J]: a text frame of the progress variant
    ([type] is ["executing"]) whose [data] carries [J] as job identifier and a
    falsy active-node identifier. *)
Definition completes (J : string) (data : RawData) : bool :=
  match data with
  | Some message =>
      match get (config := request) message "type", get (config := request) message "data" with
      | inr type, inr messageData =>
          strict_eq type "executing" &&
          match get (config := request) messageData "node",
                get (config := request) messageData "prompt_id" with
          | inr node, inr prompt_id => negb (ToBoolean node) && strict_eq prompt_id J
          | _, _ => false
          end
      | _, _ => false
      end
  | None => false
  end.

(** The frames a tracker of job [J] has no interest in: binary frames,
    events of another kind than the progress variant, and events that carry
    another job identifier. *)
Definition irrelevant (J : string) (frame : RawData * bool) : bool :=
  let (data, isBinary) := frame in
  isBinary ||
  match data with
  | Some message =>
      match get (config := request) message "type", get (config := request) message "data" with
      | inr type, inr messageData =>
          negb (strict_eq type "executing") ||
          match get (config := request) messageData "prompt_id" with
          | inr prompt_id => negb (strict_eq prompt_id J)
          | inl _ => false
          end
      | _, _ => false
      end
  | None => false
  end.

Definition frame_event (frame : RawData * bool) : event :=
  ws_message (fst frame) (snd frame).

(** The state without its log. *)
Definition unlogged (w : World) : World := set_logged [] w.

(** The message listeners of the socket held in [this.ws]. *)
Definition message_listeners (w : World) : list listener :=
  match ws (this w) with
  | Some sock => registered ev_message sock
  | None => []
  end.

(** A connected client on which no job is tracked. *)
Definition idle (w : World) : Prop :=
  ws (this w) = Some connected_socket /\
  inflight w = [].

(** The state [getImages] is in once the job was accepted as [J] and
    [onMessage] is registered: nothing fetched yet, nothing settled. *)
Definition listening (J : string) (w : World) : Prop :=
  ws (this w) = Some (ws_on ev_message (onMessage J) connected_socket) /\
  inflight w = [] /\
  outcome w = Pending /\
  outputImages w = ∅.

(** An activation of the tracker of job [J]. *)
Definition belongs (J : string) (t : task) : Prop :=
  match t with
  | await_queuePrompt _ => False
  | await_getHistory promptId => promptId = J
  | await_getImage promptId _ _ _ _ _ => promptId = J
  end.

(** Every [onMessage] closure on the socket and every activation in the
    state belongs to the tracker of job [J]. *)
Definition tracks (J : string) (w : World) : Prop :=
  (forall l, l ∈ message_listeners w -> l = connect_on_message \/ l = onMessage J) /\
  (forall t, t ∈ inflight w -> belongs J t).

(** ** Relations between states *)

(** [w'] differs from [w] at most by log lines, by the promise of [connect],
    and by a rejection of the pending outcome. *)
Definition aside (w w' : World) : Prop :=
  this w' = this w /\ outputImages w' = outputImages w /\
  inflight w' = inflight w /\ sent w' = sent w /\
  (outcome w' = outcome w \/ (outcome w = Pending /\ exists err, outcome w' = Rejected err)).

(** [w'] is [w] with [n] more history fetches under way. *)
Definition spawned (J : string) (w w' : World) : Prop :=
  this w' = this w /\ outputImages w' = outputImages w /\ outcome w' = outcome w /\
  exists n, inflight w' = inflight w ++ replicate n (await_getHistory J) /\
            sent w' = sent w ++ replicate n (getHistory_request (this w) J).

(** [w'] differs from [w] at most by log lines and by the promise of
    [connect]. *)
Definition untouched (w w' : World) : Prop :=
  this w' = this w /\ outputImages w' = outputImages w /\
  inflight w' = inflight w /\ sent w' = sent w /\ outcome w' = outcome w.

(** A promise settles once. *)
Definition kept (w w' : World) : Prop :=
  outcome w <> Pending -> outcome w' = outcome w.

(** The message listeners are those of [connect] and of the tracker of [J]. *)
Definition listens (J : string) (w : World) : Prop :=
  forall l, l ∈ message_listeners w -> l = connect_on_message \/ l = onMessage J.



(** Events a tracker of [J] that is still listening does not react to. *)
Definition harmless (J : string) (ev : event) : Prop :=
  match ev with
  | ws_message data isBinary => irrelevant J (data, isBinary) = true
  | _ => True
  end.

Definition not_a_frame (ev : event) : Prop :=
  match ev with
  | ws_message _ _ => False
  | _ => True
  end.

(** Every frame of the trace is a completion event for job [J1]. *)
Definition foreign_completion (J1 : string) (ev : event) : Prop :=
  match ev with
  | ws_message data isBinary => isBinary = false /\ completes J1 data = true
  | _ => True
  end.

(** ** The loop over the output nodes, in closed form *)

(** Nodes the loop passes without parking: no [images], or an empty list. *)
Definition bare (node : string * NodeOutput) : Prop :=
  images (snd node) = None \/ images (snd node) = Some [].

(** The assignments the loop makes while it passes bare nodes. *)
Definition fill (nodes : list (string * NodeOutput)) (o : gmap string (list ImageContainer)) :=
  fold_left (fun o node =>
               match images (snd node) with
               | Some [] => <[fst node := []]> o
               | _ => o
               end) nodes o.

(** The first node with an image to fetch, with the nodes before and after. *)
Fixpoint next_fetch (nodes : list (string * NodeOutput)) :
    option (list (string * NodeOutput) * (string * ImageRef * list ImageRef) * list (string * NodeOutput)) :=
  match nodes with
  | [] => None
  | (nodeId, nodeOutput) :: nodes' =>
      match images nodeOutput with
      | Some (image :: rest) => Some ([], (nodeId, image, rest), nodes')
      | _ =>
          match next_fetch nodes' with
          | Some (pre, found, todo) => Some ((nodeId, nodeOutput) :: pre, found, todo)
          | None => None
          end
      end
  end.

Definition unregister (J : string) (w : World) : World :=
  fst (this_ws_off ev_message (onMessage J) w).

(** ** A server that answers consistently *)

(** What a fetch stub that is a function of the reference yields. *)
Definition artifact (fetch : ImageRef -> Buffer) (r : ImageRef) : ImageContainer :=
  {| buffer := fetch r; image := r |}.

(** The reply delivered by [ev] is the one a server holding [history] for job
    [J] and serving artifacts by [fetch] gives to the activation it reaches;
    failures may occur at any request. *)
Definition agrees (J : string) (history : HistoryEntry) (fetch : ImageRef -> Buffer)
    (w : World) (ev : event) : Prop :=
  match ev with
  | http_reply i r =>
      match inflight w !! i, r with
      | Some (await_getHistory _), history_ok res => res !! J = Some history
      | Some (await_getImage _ _ _ _ image _), image_ok data => data = fetch image
      | _, _ => True
      end
  | _ => True
  end.

Fixpoint served (J : string) (history : HistoryEntry) (fetch : ImageRef -> Buffer)
    (w : World) (evs : list event) : Prop :=
  match evs with
  | [] => True
  | ev :: evs' => agrees J history fetch w ev /\ served J history fetch (step w ev) evs'
  end.

(** Every node of [nodes] that lists images has its artifacts in [o], in the
    listed order. *)
Definition covered (fetch : ImageRef -> Buffer) (nodes : list (string * NodeOutput))
    (o : gmap string (list ImageContainer)) : Prop :=
  forall k imgs, (k, {| images := Some imgs |}) ∈ nodes -> o !! k = Some (artifact fetch <$> imgs).

(** Every entry of [o] is the artifact list of a node of the history record. *)
Definition sound (history : HistoryEntry) (fetch : ImageRef -> Buffer)
    (o : gmap string (list ImageContainer)) : Prop :=
  forall k v, o !! k = Some v ->
    exists imgs, (k, {| images := Some imgs |}) ∈ outputs history /\ v = artifact fetch <$> imgs.

(** [o'] is [o] after some assignments of artifact lists of the record. *)
Definition extends (history : HistoryEntry) (fetch : ImageRef -> Buffer)
    (o o' : gmap string (list ImageContainer)) : Prop :=
  forall k, o' !! k = o !! k \/
    exists imgs, (k, {| images := Some imgs |}) ∈ outputs history /\
                 o' !! k = Some (artifact fetch <$> imgs).

(** A parked activation of the tracker of [J] is where the loop over the
    record would be: the nodes before the current one are assigned, and
    [imagesOutput] holds the artifacts of the current node fetched so far. *)
Definition on_course (J : string) (history : HistoryEntry) (fetch : ImageRef -> Buffer)
    (o : gmap string (list ImageContainer)) (t : task) : Prop :=
  match t with
  | await_queuePrompt _ => False
  | await_getHistory p => p = J
  | await_getImage p todo nodeId acc image rest =>
      p = J /\ exists pre done,
        outputs history = pre ++ (nodeId, {| images := Some (done ++ image :: rest) |}) :: todo /\
        acc = artifact fetch <$> done /\ covered fetch pre o
  end.

(** The invariant of a tracker of [J] served consistently. *)
Definition collecting (J : string) (history : HistoryEntry) (fetch : ImageRef -> Buffer)
    (w : World) : Prop :=
  listens J w /\ sound history fetch (outputImages w) /\
  (forall t, t ∈ inflight w -> on_course J history fetch (outputImages w) t) /\
  (outcome w = Fulfilled -> covered fetch (outputs history) (outputImages w)).

(** ** The collection, served in sequence *)

(** The references the loop fetches for [nodes], in the order of the fetches. *)
Definition references (nodes : list (string * NodeOutput)) : list ImageRef :=
  concat ((fun node => default [] (images (snd node))) <$> nodes).

(** The replies of a server that answers every request of the collection for
    job [J], one after the other. *)
Definition collection (J : string) (history : HistoryEntry) (fetch : ImageRef -> Buffer) : list event :=
  http_reply 0 (history_ok {[ J := history ]}) ::
  ((fun r => http_reply 0 (image_ok (fetch r))) <$> references (outputs history)).

Definition image_replies (fetch : ImageRef -> Buffer) (refs : list ImageRef) : list event :=
  (fun r => http_reply 0 (image_ok (fetch r))) <$> refs.

(** The trace [evs] is one a consistent server can produce from [w], and it
    ends with the promise fulfilled and no activation left. *)
Definition fulfils (J : string) (history : HistoryEntry) (fetch : ImageRef -> Buffer)
    (w : World) (evs : list event) : Prop :=
  served J history fetch w evs /\ outcome (run w evs) = Fulfilled /\ inflight (run w evs) = [].

(** ** A concrete session *)

Definition client0 : ComfyUIClient := constructor "127.0.0.1:8188" "client" false false.

Definition connected0 : World := step (connect (boot client0)) ws_open.

(** [{type: "executing", data: {node, prompt_id}}] *)
Definition progress (node : value) (J : string) : RawData :=
  Some (VObject [("type", VString "executing");
                 ("data", VObject [("node", node); ("prompt_id", VString J)])]).


(** The job graph [{}] was submitted and accepted as ["abc123"]. *)
Definition tracking0 : World :=
  step (getImages (VObject []) connected0) (http_reply 0 (queue_ok {| prompt_id := "abc123" |})).

Definition a_png : ImageRef := {| filename := "a.png"; subfolder := ""; type := "output" |}.
Definition b_png : ImageRef := {| filename := "b.png"; subfolder := ""; type := "output" |}.

Definition history0 : HistoryEntry :=
  {| outputs := [("9", {| images := Some [a_png; b_png] |}); ("12", {| images := None |})] |}.

Definition fetch0 (r : ImageRef) : Buffer :=
  if String.eqb (filename r) "a.png" then [Byte.x0a] else [Byte.x0b].

(** Progress on node ["3"], completion, then the history record and the two
    artifacts. *)
Definition roundtrip0 : list event :=
  [ ws_message (progress (VString "3") "abc123") false;
    ws_message (progress VNull "abc123") false;
    http_reply 0 (history_ok {[ "abc123" := history0 ]});
    http_reply 0 (image_ok (fetch0 a_png));
    http_reply 0 (image_ok (fetch0 b_png)) ].

(** The first of the two artifacts has arrived, the second is awaited. *)
Definition one_fetched : World :=
  run tracking0 [ ws_message (progress VNull "abc123") false;
                  http_reply 0 (history_ok {[ "abc123" := history0 ]});
                  http_reply 0 (image_ok (fetch0 a_png)) ].

(** ** Further definitions: collection, saving, timed connect *)

(** The tracker of [J] has handed over its result: the promise is fulfilled,
    no activation is left, [onMessage] is off the socket, and [reqs] are the
    requests sent since [w]. *)
Definition collected (J : string) (w : World) (reqs : list request) (w' : World) : Prop :=
  outcome w' = Fulfilled /\ inflight w' = [] /\
  this w' = this (unregister J w) /\ sent w' = sent w ++ reqs.

(** No closure of [getImages] is on the socket and no activation is parked. *)
Definition detached (w : World) : Prop :=
  (forall l, l ∈ message_listeners w -> l = connect_on_message) /\ inflight w = [].

Definition not_a_reply (ev : event) : Prop :=
  match ev with
  | http_reply _ _ => False
  | _ => True
  end.



(** ** saveImages *)

(** The outcome of [saveImages]: every file was written, or [writeFile]
    threw at [path]; either way with the files as they are then. *)
Inductive saved :=
| written (fs : gmap string Buffer)
| write_failed (path : string) (fs : gmap string Buffer).

(** [writeFile(path, data)] on a file system that maps paths to contents:
    the write replaces the content at [path], unless the system refuses the
    path, in which case it throws and the files are as before. *)
Definition writeFile (refused : string -> bool) (path : string) (data : Buffer)
    (fs : gmap string Buffer) : option (gmap string Buffer) :=
  if refused path then None else Some (<[path := data]> fs).

(** The inner loop, [for (const img of response[nodeId])].  [join] is
    [path.join]. *)
Fixpoint save_node (join : string -> string -> string) (refused : string -> bool)
    (outputDir : string) (imgs : list ImageContainer) (fs : gmap string Buffer) : saved :=
  match imgs with
  | [] => written fs
  | img :: imgs' =>
      let outputPath := join outputDir (filename (image img)) in
      match writeFile refused outputPath (buffer img) fs with
      | Some fs' => save_node join refused outputDir imgs' fs'
      | None => write_failed outputPath fs
      end
  end.

(** [saveImages(response, outputDir)]; [response] lists the properties of the
    collection in the order of [Object.keys]. *)
Fixpoint saveImages (join : string -> string -> string) (refused : string -> bool)
    (response : list (string * list ImageContainer)) (outputDir : string)
    (fs : gmap string Buffer) : saved :=
  match response with
  | [] => written fs
  | (nodeId, imgs) :: response' =>
      match save_node join refused outputDir imgs fs with
      | written fs' => saveImages join refused response' outputDir fs'
      | write_failed path fs' => write_failed path fs'
      end
  end.

(** All artifacts of a collection, in the order [saveImages] visits them. *)
Definition artifacts (response : list (string * list ImageContainer)) : list ImageContainer :=
  concat (snd <$> response).

(** The files after the artifacts [imgs] were written over [fs]. *)
Definition disk_after (join : string -> string -> string) (outputDir : string)
    (imgs : list ImageContainer) (fs : gmap string Buffer) : gmap string Buffer :=
  fold_left (fun fs img => <[join outputDir (filename (image img)) := buffer img]> fs) imgs fs.

(** The last artifact of [imgs] that is written to [path]. *)
Definition last_at (join : string -> string -> string) (outputDir path : string)
    (imgs : list ImageContainer) : option ImageContainer :=
  last (filter (fun img => join outputDir (filename (image img)) = path) imgs).

(** ** connect with a timeout *)

(** The event loop together with what [connect(timeout, onTimeout)] closes
    over: whether its timer is armed, whether [onTimeout] was given, and how
    often it has been called. *)
Record Session := {
  loop : World;
  timeoutId : bool;
  onTimeout : bool;
  timeouts : nat }.

(** [timeout && setTimeout(..., timeout)]: no timer for [undefined] or [0]. *)
Definition arms (timeout : option Z) : bool :=
  match timeout with
  | Some t => negb (Z.eqb t 0)
  | None => false
  end.

Definition connect_with (timeout : option Z) (onTimeout : bool) (w : World) : Session :=
  {| loop := connect w; timeoutId := arms timeout; onTimeout := onTimeout; timeouts := 0 |}.

Inductive tick :=
| loop_event (ev : event)
| timer_fires.

(** The timer callback: [this.disconnect(); onTimeout && onTimeout();
    reject(new Error('Connection timeout'))]. *)
Definition on_timer (s : Session) : Session :=
  {| loop := reject_opened (Error "Connection timeout") (disconnect (loop s));
     timeoutId := false;
     onTimeout := onTimeout s;
     timeouts := if onTimeout s then S (timeouts s) else timeouts s |}.

(** Whether the open listener of [connect] is on the socket held in
    [this.ws]; it runs [timeoutId && clearTimeout(timeoutId)]. *)
Definition open_listener_runs (w : World) : bool :=
  match ws (this w) with
  | Some sock => bool_decide (connect_on_open ∈ registered ev_open sock)
  | None => false
  end.

Definition session_step (s : Session) (t : tick) : Session :=
  match t with
  | timer_fires => if timeoutId s then on_timer s else s
  | loop_event ev =>
      {| loop := step (loop s) ev;
         timeoutId :=
           match ev with
           | ws_open => if open_listener_runs (loop s) then false else timeoutId s
           | _ => timeoutId s
           end;
         onTimeout := onTimeout s;
         timeouts := timeouts s |}
  end.

Definition session_run (s : Session) (ts : list tick) : Session := fold_left session_step ts s.

(** The events of the loop among the ticks. *)
Definition loop_events (ts : list tick) : list event :=
  omap (fun t => match t with loop_event ev => Some ev | timer_fires => None end) ts.

(** [path.join] on two plain segments. *)
Definition join0 (dir file : string) : string := dir +:+ "/" +:+ file.

(** The collection of the round trip, as [Object.keys] lists it. *)
Definition response0 : list (string * list ImageContainer) :=
  [("9", [artifact fetch0 a_png; artifact fetch0 b_png])].

(** The completion event of the round trip. *)
Definition done0 : RawData := progress VNull "abc123".

(** * Proofs *)

Ltac crunch :=
  vm_compute; repeat match goal with |- _ /\ _ => split end; reflexivity.
Lemma strict_eq_true v s : strict_eq v s = true -> v = VString s.
Proof.
  destruct v; simpl; try discriminate.
  intros H. apply String.eqb_eq in H. by subst.
Qed.

Lemma onMessage_try_completes J data w :
  completes J data = true ->
  onMessage_try J data w =
    (set_sent (sent w ++ [getHistory_request (this w) J])
       (set_logged (logged w ++ [Done_executing_prompt (VString J)]) w),
     inr (Some (await_getHistory J))).
Proof.
  unfold completes, onMessage_try, bind, lift, JSON_parse.
  destruct data as [message|]; [|discriminate].
  destruct (get message "type") as [e|type] eqn:Ety; [discriminate|].
  destruct (get message "data") as [e|messageData] eqn:Edata; [discriminate|].
  intros H. apply andb_prop in H as [Hty H]. rewrite Hty.
  destruct (get messageData "node") as [e|node] eqn:Enode; [discriminate|].
  destruct (get messageData "prompt_id") as [e|pid] eqn:Epid; [discriminate|].
  apply andb_prop in H as [Hnode Hpid]. rewrite Hnode.
  apply strict_eq_true in Hpid as Hp. subst pid.
  rewrite Hpid. reflexivity.
Qed.

Lemma onMessage_try_other J data w :
  completes J data = false ->
  exists w' r, onMessage_try J data w = (w', r) /\ unlogged w' = unlogged w /\
    (r = inr None \/ exists err, r = inl err /\ w' = w).
Proof.
  unfold completes, onMessage_try, bind, lift, JSON_parse.
  destruct data as [message|]; [|intros _; eauto 10].
  destruct (get message "type") as [e|type] eqn:Ety; [intros _; eauto 10|].
  destruct (get message "data") as [e|messageData] eqn:Edata.
  { destruct message; simpl in *; discriminate. }
  destruct (strict_eq type "executing"); [|intros _; unfold ret; eauto 10].
  destruct (get messageData "node") as [e|node] eqn:Enode; [intros _; eauto 10|].
  destruct (get messageData "prompt_id") as [e|pid] eqn:Epid.
  { destruct messageData; simpl in *; discriminate. }
  simpl. destruct (ToBoolean node); simpl; [intros _; unfold ret; eauto 10|].
  intros ->. unfold ret. simpl. eauto 10.
Qed.

Lemma onMessage_try_irrelevant J data w :
  irrelevant J (data, false) = true ->
  exists w', onMessage_try J data w = (w', inr None) /\ unlogged w' = unlogged w.
Proof.
  unfold irrelevant, onMessage_try, bind, lift, JSON_parse. simpl.
  destruct data as [message|]; [|discriminate].
  destruct (get message "type") as [e|type] eqn:Ety; [discriminate|].
  destruct (get message "data") as [e|messageData] eqn:Edata; [discriminate|].
  destruct (strict_eq type "executing"); simpl; [|intros _; unfold ret; eauto].
  destruct (get messageData "prompt_id") as [e|pid] eqn:Epid; [discriminate|].
  destruct (get messageData "node") as [e|node] eqn:Enode.
  { destruct messageData; simpl in *; discriminate. }
  intros H. apply negb_true_iff in H. rewrite H.
  destruct (ToBoolean node); simpl; unfold ret; eauto.
Qed.

Lemma irrelevant_not_completes J data :
  irrelevant J (data, false) = true -> completes J data = false.
Proof.
  unfold irrelevant, completes. simpl.
  destruct data as [message|]; [|done].
  destruct (get message "type") as [e|type]; [done|].
  destruct (get message "data") as [e|messageData]; [done|].
  destruct (strict_eq type "executing"); simpl; [|done].
  destruct (get messageData "prompt_id") as [e|pid]; [discriminate|].
  intros H. apply negb_true_iff in H. rewrite H.
  destruct (get messageData "node"); [done|]. apply andb_false_r.
Qed.

Lemma aside_refl w : aside w w.
Proof. unfold aside; auto 10. Qed.

Lemma aside_trans w1 w2 w3 : aside w1 w2 -> aside w2 w3 -> aside w1 w3.
Proof.
  intros (Ht & Ho & Hi & Hs & Hc) (Ht' & Ho' & Hi' & Hs' & Hc').
  unfold aside. rewrite Ht', Ho', Hi', Hs'. repeat split; trivial.
  destruct Hc as [Hc|[Hp [e He]]], Hc' as [Hc'|[Hp' [e' He']]].
  - left; congruence.
  - right; split; [congruence|eauto].
  - right; split; [done|]. exists e. congruence.
  - congruence.
Qed.

Lemma spawned_refl J w : spawned J w w.
Proof.
  unfold spawned. repeat split; trivial. exists 0. simpl. by rewrite !app_nil_r.
Qed.

Lemma spawned_trans J w1 w2 w3 : spawned J w1 w2 -> spawned J w2 w3 -> spawned J w1 w3.
Proof.
  intros (Ht & Ho & Hc & n & Hi & Hs) (Ht' & Ho' & Hc' & m & Hi' & Hs').
  unfold spawned. rewrite Ht', Ho', Hc'. repeat split; trivial.
  exists (n + m). rewrite Hi', Hs', Hi, Hs, Ht, !replicate_add, !app_assoc. done.
Qed.

Lemma fold_left_preorder {A} (R : World -> World -> Prop) (f : World -> A -> World) (ls : list A) :
  (forall w, R w w) -> (forall w1 w2 w3, R w1 w2 -> R w2 w3 -> R w1 w3) ->
  (forall l w, l ∈ ls -> R w (f w l)) ->
  forall w, R w (fold_left f ls w).
Proof.
  intros Hrefl Htrans. induction ls as [|l ls IH]; intros Hf w; simpl; [apply Hrefl|].
  eapply Htrans; [apply Hf; left|]. apply IH. intros; apply Hf. by right.
Qed.

Lemma reject_aside err w : aside w (reject err w).
Proof.
  unfold aside, reject. destruct (outcome w) eqn:E; simpl; rewrite ?E; auto 10.
  repeat split; trivial. right. eauto.
Qed.

Lemma unlogged_aside w w' : unlogged w' = unlogged w -> aside w w'.
Proof.
  intros H. unfold aside.
  change (this w') with (this (unlogged w')). change (outputImages w') with (outputImages (unlogged w')).
  change (inflight w') with (inflight (unlogged w')). change (sent w') with (sent (unlogged w')).
  change (outcome w') with (outcome (unlogged w')). rewrite H. simpl. auto 10.
Qed.

Lemma call_onMessage_completes J data w :
  completes J data = true ->
  call (onMessage J) (ws_message data false) w =
    set_inflight (inflight w ++ [await_getHistory J])
      (set_sent (sent w ++ [getHistory_request (this w) J])
         (set_logged (logged w ++ [Done_executing_prompt (VString J)]) w)).
Proof.
  intros H. unfold call, try_catch. by rewrite (onMessage_try_completes _ _ _ H).
Qed.

Lemma call_onMessage_other J data isBinary w :
  isBinary = true \/ completes J data = false ->
  aside w (call (onMessage J) (ws_message data isBinary) w).
Proof.
  intros H. unfold call. destruct isBinary; [apply aside_refl|].
  destruct H as [H|H]; [done|].
  destruct (onMessage_try_other J data w H) as (w' & r & E & Hu & Hr).
  unfold try_catch. rewrite E.
  destruct Hr as [->|(err & -> & ->)]; [by apply unlogged_aside|apply reject_aside].
Qed.

Lemma call_onMessage_irrelevant J frame w :
  irrelevant J frame = true ->
  unlogged (call (onMessage J) (frame_event frame) w) = unlogged w.
Proof.
  destruct frame as [data isBinary]. unfold frame_event; simpl fst; simpl snd.
  intros H. unfold call. destruct isBinary; [done|].
  destruct (onMessage_try_irrelevant J data w H) as (w' & E & Hu).
  unfold try_catch. by rewrite E.
Qed.

Lemma call_spawned J data w :
  completes J data = true ->
  spawned J w (call (onMessage J) (ws_message data false) w).
Proof.
  intros H. rewrite (call_onMessage_completes _ _ _ H).
  unfold spawned; simpl. repeat split; trivial. by exists 1.
Qed.

(** A listener of [connect] never touches the tracker. *)
Lemma call_connect_aside l ev w :
  (forall p, l <> onMessage p) -> aside w (call l ev w).
Proof.
  intros Hl. destruct l, ev; simpl; try apply aside_refl.
  - unfold aside, resolve_opened; simpl. destruct (opened w); simpl; auto 10.
  - unfold aside; simpl; auto 10.
  - unfold aside, reject_opened; simpl. destruct (opened w); simpl; auto 10.
  - by destruct (Hl promptId).
Qed.

Lemma call_connect_unlogged_message data isBinary w :
  call connect_on_message (ws_message data isBinary) w = w.
Proof. done. Qed.

(** Events other than frames leave the tracker alone whatever is registered. *)
Lemma call_not_message_aside l ev w :
  (forall data isBinary, ev <> ws_message data isBinary) -> aside w (call l ev w).
Proof.
  intros Hev. destruct l; try (apply call_connect_aside; done).
  destruct ev; simpl; try apply aside_refl. by destruct (Hev data isBinary).
Qed.

Lemma step_message_emit data isBinary w :
  step w (ws_message data isBinary) =
    fold_left (fun w' l => call l (ws_message data isBinary) w') (message_listeners w) w.
Proof.
  unfold step, emit, message_listeners; simpl. by destruct (ws (this w)).
Qed.

Lemma step_not_frame_aside ev w :
  (forall data isBinary, ev <> ws_message data isBinary) ->
  (forall i r, ev <> http_reply i r) ->
  aside w (step w ev).
Proof.
  intros Hm Hr. destruct ev; try (by destruct (Hr i r)); unfold step, emit; simpl;
    (destruct (ws (this w)); [|apply aside_refl]);
    (apply (fold_left_preorder aside); [apply aside_refl|apply aside_trans|]);
    intros; by apply call_not_message_aside.
Qed.

Lemma step_irrelevant J frame w :
  listens J w -> irrelevant J frame = true ->
  unlogged (step w (frame_event frame)) = unlogged w.
Proof.
  intros Hl Hirr. unfold frame_event. rewrite step_message_emit.
  apply (fold_left_preorder (fun w w' => unlogged w' = unlogged w)); [done|congruence|].
  intros l w' Hin. destruct (Hl l Hin) as [->| ->]; [done|].
  by apply (call_onMessage_irrelevant J frame).
Qed.

Lemma step_frame_other J data isBinary w :
  listens J w -> isBinary = true \/ completes J data = false ->
  aside w (step w (ws_message data isBinary)).
Proof.
  intros Hl H. rewrite step_message_emit.
  apply (fold_left_preorder aside); [apply aside_refl|apply aside_trans|].
  intros l w' Hin. destruct (Hl l Hin) as [->| ->]; [apply aside_refl|].
  by apply call_onMessage_other.
Qed.

Lemma step_frame_completes J data w :
  listens J w -> completes J data = true ->
  spawned J w (step w (ws_message data false)).
Proof.
  intros Hl H. rewrite step_message_emit.
  apply (fold_left_preorder (spawned J)); [apply spawned_refl|apply spawned_trans|].
  intros l w' Hin. destruct (Hl l Hin) as [->| ->]; [apply spawned_refl|].
  by apply call_spawned.
Qed.

(** *** The loop over the output nodes *)

Lemma populate_eq J nodes : forall w,
  populate J nodes w =
    match next_fetch nodes with
    | Some (pre, (nodeId, image, rest), todo) =>
        (set_sent (sent w ++ [getImage_request (this w) image])
           (set_outputImages (fill pre (outputImages w)) w),
         inr (Some (await_getImage J todo nodeId [] image rest)))
    | None =>
        (resolve (unregister J (set_outputImages (fill nodes (outputImages w)) w)), inr None)
    end.
Proof.
  induction nodes as [|[nodeId nodeOutput] nodes IH]; intros w.
  - simpl. unfold bind, modify, ret, unregister. simpl. by destruct w.
  - simpl. destruct (images nodeOutput) as [[|image rest]|] eqn:E.
    + unfold bind, modify at 1. rewrite IH. simpl.
      destruct (next_fetch nodes) as [[[pre [[n i] r]] todo]|]; simpl; rewrite ?E; done.
    + unfold bind, getImage, read, axios, modify, ret. simpl. by destruct w.
    + rewrite IH. destruct (next_fetch nodes) as [[[pre [[n i] r]] todo]|]; simpl; rewrite ?E; done.
Qed.

Lemma next_fetch_Some nodes pre nodeId image rest todo :
  next_fetch nodes = Some (pre, (nodeId, image, rest), todo) ->
  nodes = pre ++ (nodeId, {| images := Some (image :: rest) |}) :: todo /\ Forall bare pre.
Proof.
  revert pre. induction nodes as [|[k out] nodes IH]; intros pre; simpl; [done|].
  destruct (images out) as [[|i r]|] eqn:E.
  - destruct (next_fetch nodes) as [[[pre' f] todo']|]; [|done].
    intros [= <- -> ->]. destruct (IH pre' eq_refl) as [-> Hb]. split; [done|].
    constructor; [by right|done].
  - intros [= <- <- <- <- <-]. split; [|constructor]. simpl. destruct out; simpl in *; by subst.
  - destruct (next_fetch nodes) as [[[pre' f] todo']|]; [|done].
    intros [= <- -> ->]. destruct (IH pre' eq_refl) as [-> Hb]. split; [done|].
    constructor; [by left|done].
Qed.

Lemma next_fetch_None nodes : next_fetch nodes = None -> Forall bare nodes.
Proof.
  induction nodes as [|[k out] nodes IH]; simpl; [constructor|].
  destruct (images out) as [[|i r]|] eqn:E; try done;
    destruct (next_fetch nodes) as [[[pre' f] todo']|]; try done; intros _;
    (constructor; [|by apply IH]); [by right|by left].
Qed.

Lemma deliver_None i r w : inflight w !! i = None -> deliver i r w = w.
Proof. unfold deliver. by intros ->. Qed.

Lemma try_catch_populate J nodes w :
  try_catch (populate J nodes) w =
    match next_fetch nodes with
    | Some (pre, (nodeId, image, rest), todo) =>
        (set_sent (sent w ++ [getImage_request (this w) image])
           (set_outputImages (fill pre (outputImages w)) w),
         Some (await_getImage J todo nodeId [] image rest))
    | None =>
        (resolve (unregister J (set_outputImages (fill nodes (outputImages w)) w)), None)
    end.
Proof.
  unfold try_catch. rewrite populate_eq.
  by destruct (next_fetch nodes) as [[[pre [[n i] r]] todo]|].
Qed.

Lemma reject_fields err w :
  this (reject err w) = this w /\ outputImages (reject err w) = outputImages w /\
  inflight (reject err w) = inflight w /\ sent (reject err w) = sent w /\
  logged (reject err w) = logged w /\ opened (reject err w) = opened w.
Proof. unfold reject. by destruct (outcome w). Qed.

Lemma resolve_fields w :
  this (resolve w) = this w /\ outputImages (resolve w) = outputImages w /\
  inflight (resolve w) = inflight w /\ sent (resolve w) = sent w /\
  logged (resolve w) = logged w /\ opened (resolve w) = opened w.
Proof. unfold resolve. by destruct (outcome w). Qed.

Lemma unregister_fields J w :
  outcome (unregister J w) = outcome w /\ outputImages (unregister J w) = outputImages w /\
  inflight (unregister J w) = inflight w /\ sent (unregister J w) = sent w /\
  logged (unregister J w) = logged w /\ opened (unregister J w) = opened w.
Proof. unfold unregister, this_ws_off, modify; simpl. by destruct (ws (this w)). Qed.

(** The effect of a reply, case by case. *)
Lemma deliver_eq i r w t :
  inflight w !! i = Some t ->
  deliver i r w =
    match t, r with
    | _, failed status =>
        set_inflight (delete i (inflight w)) (reject (AxiosError (awaited (this w) t) status) w)
    | await_queuePrompt _, queue_ok queue =>
        set_inflight (delete i (inflight w))
          (fst (this_ws_on ev_message (onMessage (prompt_id queue)) (set_outputImages ∅ w)))
    | await_getHistory J, history_ok historyRes =>
        match historyRes !! J with
        | Some history => park i (try_catch (populate J (outputs history)) w)
        | None => set_inflight (delete i (inflight w)) (reject TypeError w)
        end
    | await_getImage J todo nodeId imagesOutput image rest, image_ok data =>
        let imagesOutput' := imagesOutput ++ [{| buffer := data; image := image |}] in
        match rest with
        | [] =>
            park i (try_catch (populate J todo)
                      (set_outputImages (<[nodeId := imagesOutput']> (outputImages w)) w))
        | image' :: rest' =>
            set_inflight (<[i := await_getImage J todo nodeId imagesOutput' image' rest']> (inflight w))
              (set_sent (sent w ++ [getImage_request (this w) image']) w)
        end
    | _, _ => w
    end.
Proof.
  intros Hi. unfold deliver. rewrite Hi.
  destruct t, r; try done; simpl.
  - by rewrite (proj1 (proj2 (proj2 (reject_fields _ w)))).
  - unfold this_ws_on, modify; simpl. by destruct (ws (this w)).
  - by rewrite (proj1 (proj2 (proj2 (reject_fields _ w)))).
  - destruct (res !! promptId); [done|].
    unfold try_catch, throw; simpl. by rewrite (proj1 (proj2 (proj2 (reject_fields _ w)))).
  - by rewrite (proj1 (proj2 (proj2 (reject_fields _ w)))).
  - destruct rest; [done|].
    unfold try_catch, bind, getImage, read, axios, modify, ret; simpl. done.
Qed.

Lemma elem_of_remove_first x y ls : x ∈ remove_first y ls -> x ∈ ls.
Proof.
  induction ls as [|z ls IH]; simpl; [done|].
  destruct (decide (y = z)); [by right|].
  intros [->|H]%elem_of_cons; [left|right; auto].
Qed.

Lemma elem_of_registered name l sock :
  l ∈ registered name sock <-> (name, l) ∈ listeners sock.
Proof.
  unfold registered. rewrite list_elem_of_fmap. split.
  - intros ([n l'] & -> & H%list_elem_of_filter). simpl in *. by destruct H as [-> H].
  - intros H. exists (name, l). split; [done|]. by apply list_elem_of_filter.
Qed.

Lemma registered_ws_off name' name l sock x :
  x ∈ registered name' (ws_off name l sock) -> x ∈ registered name' sock.
Proof.
  rewrite !elem_of_registered. unfold ws_off; simpl.
  rewrite elem_of_reverse. intros H%elem_of_remove_first. by apply elem_of_reverse.
Qed.

Lemma message_listeners_unregister J w l :
  l ∈ message_listeners (unregister J w) -> l ∈ message_listeners w.
Proof.
  unfold message_listeners, unregister, this_ws_off, modify; simpl.
  destruct (ws (this w)) as [sock|] eqn:E; simpl; [|by rewrite E].
  apply registered_ws_off.
Qed.

Lemma elem_of_insert_inv {A} (x y : A) (i : nat) (l : list A) : x ∈ <[i:=y]> l -> x = y \/ x ∈ l.
Proof.
  revert i. induction l as [|z l IH]; intros [|i]; simpl; try by right.
  - intros [->|H]%elem_of_cons; [by left|right; by right].
  - intros [->|H]%elem_of_cons; [right; left|].
    destruct (IH _ H); [by left|right; by right].
Qed.

Lemma message_listeners_this w w' : this w' = this w -> message_listeners w' = message_listeners w.
Proof. unfold message_listeners. by intros ->. Qed.

Lemma message_listeners_set_inflight ts w :
  message_listeners (set_inflight ts w) = message_listeners w.
Proof. done. Qed.




(** Every frame is either of no consequence for the tracker of [J], or a
    completion event for [J] that starts history fetches. *)
Lemma step_frame_cases J data isBinary w :
  listens J w ->
  aside w (step w (ws_message data isBinary)) \/
  (isBinary = false /\ completes J data = true /\ spawned J w (step w (ws_message data isBinary))).
Proof.
  intros Hl. destruct isBinary; [left; apply (step_frame_other J); auto|].
  destruct (completes J data) eqn:E.
  - right. split; [done|]. split; [done|]. by apply step_frame_completes.
  - left. apply (step_frame_other J); auto.
Qed.


Lemma run_snoc w evs ev : run w (evs ++ [ev]) = step (run w evs) ev.
Proof. unfold run. by rewrite fold_left_app. Qed.



Lemma listening_message_listeners J w :
  ws (this w) = Some (ws_on ev_message (onMessage J) connected_socket) ->
  message_listeners w = [connect_on_message; onMessage J].
Proof. unfold message_listeners. by intros ->. Qed.

Lemma listening_tracks J w : listening J w -> tracks J w.
Proof.
  intros (Hl & Hi & _). split.
  - rewrite (listening_message_listeners J w Hl).
    intros l. rewrite !elem_of_cons, elem_of_nil. tauto.
  - rewrite Hi. by intros t H%elem_of_nil.
Qed.





Lemma aside_kept w w' : aside w w' -> kept w w'.
Proof. intros (_ & _ & _ & _ & [H|[H _]]) Hp; congruence. Qed.

Lemma call_kept l ev w : kept w (call l ev w).
Proof.
  destruct l as [| | | |J]; try (apply aside_kept, call_connect_aside; done).
  destruct ev as [| |err|data isBinary|i r]; try done.
  destruct isBinary; [done|]. destruct (completes J data) eqn:E.
  - rewrite (call_onMessage_completes _ _ _ E). done.
  - apply aside_kept, call_onMessage_other. auto.
Qed.

Lemma park_populate_kept J nodes i w : kept w (park i (try_catch (populate J nodes) w)).
Proof.
  rewrite try_catch_populate.
  destruct (next_fetch nodes) as [[[pre [[n im] rs]] todo]|]; simpl; [done|].
  intros Hp. unfold resolve.
  destruct (unregister_fields J (set_outputImages (fill nodes (outputImages w)) w)) as (E & _).
  rewrite E. simpl. destruct (outcome w) eqn:Ho; [done|..]; by rewrite E.
Qed.

Lemma reject_kept err w : kept w (reject err w).
Proof. apply aside_kept, reject_aside. Qed.

Lemma deliver_kept i r w : kept w (deliver i r w).
Proof.
  destruct (inflight w !! i) as [t|] eqn:Hi; [|by rewrite deliver_None].
  rewrite (deliver_eq _ _ _ _ Hi).
  destruct t as [prompt|p|p todo nodeId acc image rest], r as [status|q|res|data];
    try done; try (intros Hp; simpl; by apply reject_kept).
  - intros Hp. unfold this_ws_on, modify; simpl. by destruct (ws (this w)).
  - destruct (res !! p); [apply park_populate_kept|]. intros Hp; simpl; by apply reject_kept.
  - simpl. destruct rest; [|done]. intros Hp.
    by rewrite park_populate_kept.
Qed.

Lemma step_kept w ev : kept w (step w ev).
Proof.
  assert (Hfold : forall ls ev w, kept w (fold_left (fun w' l => call l ev w') ls w)).
  { intros ls ev' w'. apply (fold_left_preorder kept); [done| |intros; apply call_kept].
    intros w1 w2 w3 H1 H2 Hp. rewrite H2; [by apply H1|]. by rewrite H1. }
  destruct ev; try apply deliver_kept; unfold step, emit; simpl;
    (destruct (ws (this w)); [apply Hfold|done]).
Qed.

Lemma run_kept w evs : kept w (run w evs).
Proof.
  revert w. induction evs as [|ev evs IH]; intros w Hp; [done|]. simpl.
  rewrite IH; [by apply step_kept|]. by rewrite step_kept.
Qed.

Lemma NoDup_fst_functional {A B} (l : list (A * B)) x y1 y2 :
  NoDup (fst <$> l) -> (x, y1) ∈ l -> (x, y2) ∈ l -> y1 = y2.
Proof.
  induction l as [|[a b] l IH]; simpl; intros Hnd H1 H2; [by apply elem_of_nil in H1|].
  apply NoDup_cons in Hnd as [Hnot Hnd].
  apply elem_of_cons in H1 as [E1|H1], H2 as [E2|H2]; simplify_eq; auto.
  - destruct Hnot. apply list_elem_of_fmap. by exists (a, y2).
  - destruct Hnot. apply list_elem_of_fmap. by exists (a, y1).
Qed.

Lemma listeners_same w w' :
  this w' = this w -> forall l, l ∈ message_listeners w' -> l ∈ message_listeners w.
Proof. intros H l. by rewrite (message_listeners_this _ _ H). Qed.

Section Served.
Variable J : string.
Variable history : HistoryEntry.
Variable fetch : ImageRef -> Buffer.

Local Abbreviation artifact := (artifact fetch).
Local Abbreviation agrees := (agrees J history fetch).
Local Abbreviation served := (served J history fetch).
Local Abbreviation covered := (covered fetch).
Local Abbreviation sound := (sound history fetch).
Local Abbreviation extends := (extends history fetch).
Local Abbreviation on_course := (on_course J history fetch).
Local Abbreviation collecting := (collecting J history fetch).

Hypothesis distinct : NoDup (fst <$> outputs history).

Lemma same_images k imgs imgs' :
  (k, {| images := Some imgs |}) ∈ outputs history ->
  (k, {| images := Some imgs' |}) ∈ outputs history -> imgs = imgs'.
Proof.
  intros H1 H2.
  assert (E : {| images := Some imgs |} = {| images := Some imgs' |});
    [|congruence].
  eapply (NoDup_fst_functional (outputs history)); eauto.
Qed.

Lemma extends_refl o : extends o o.
Proof. intros k. by left. Qed.

Lemma extends_trans o1 o2 o3 : extends o1 o2 -> extends o2 o3 -> extends o1 o3.
Proof.
  intros H12 H23 k. destruct (H23 k) as [E|H]; [|by right].
  rewrite E. apply H12.
Qed.

Lemma extends_insert o k imgs :
  (k, {| images := Some imgs |}) ∈ outputs history ->
  extends o (<[k := artifact <$> imgs]> o).
Proof.
  intros H k'. destruct (decide (k = k')) as [<-|Hne].
  - right. exists imgs. by rewrite lookup_insert_eq.
  - left. by rewrite lookup_insert_ne.
Qed.

Lemma extends_fill pre o :
  (forall node, node ∈ pre -> node ∈ outputs history) -> extends o (fill pre o).
Proof.
  revert o. induction pre as [|[k out] pre IH]; intros o Hsub; [apply extends_refl|].
  simpl. eapply extends_trans; [|apply IH; intros; apply Hsub; by right].
  destruct out as [[[|i r]|]]; simpl; try apply extends_refl.
  apply (extends_insert o k []). apply Hsub. left.
Qed.

Lemma sound_extends o o' : sound o -> extends o o' -> sound o'.
Proof.
  intros Hs He k v Hk. destruct (He k) as [E|(imgs & Hin & E)].
  - apply Hs. by rewrite <- E.
  - exists imgs. split; [done|]. congruence.
Qed.

Lemma covered_extends pre o o' :
  (forall node, node ∈ pre -> node ∈ outputs history) ->
  covered pre o -> extends o o' -> covered pre o'.
Proof.
  intros Hsub Hc He k imgs Hin. destruct (He k) as [E|(imgs' & Hin' & E)].
  - rewrite E. by apply Hc.
  - rewrite E. by rewrite (same_images k imgs imgs' (Hsub _ Hin) Hin').
Qed.

Lemma on_course_extends o o' t : on_course o t -> extends o o' -> on_course o' t.
Proof.
  destruct t as [prompt|p|p todo nodeId acc image rest]; simpl; try done.
  intros (-> & pre & done & E & Hacc & Hc) He. split; [done|].
  exists pre, done. repeat split; try done.
  eapply covered_extends; [|done..]. intros node H. rewrite E. apply elem_of_app; by left.
Qed.

Lemma fill_keeps_empty pre o k : o !! k = Some [] -> fill pre o !! k = Some [].
Proof.
  revert o. induction pre as [|[k' out] pre IH]; intros o H; [done|].
  simpl. apply IH. destruct out as [[[|i r]|]]; simpl; try done.
  destruct (decide (k' = k)) as [->|Hne]; [by rewrite lookup_insert_eq|by rewrite lookup_insert_ne].
Qed.

Lemma covered_fill pre o : Forall bare pre -> covered pre (fill pre o).
Proof.
  revert o. induction pre as [|[k' out] pre IH]; intros o Hb k imgs Hin.
  - by apply elem_of_nil in Hin.
  - apply Forall_cons in Hb as [Hb Hpre]. simpl.
    apply elem_of_cons in Hin as [E|Hin]; [|by apply IH]. simplify_eq.
    destruct Hb as [Hb|Hb]; simpl in Hb; [done|]. injection Hb as ->. simpl.
    apply fill_keeps_empty. by rewrite lookup_insert_eq.
Qed.

Lemma covered_app pre pre' o : covered pre o -> covered pre' o -> covered (pre ++ pre') o.
Proof. intros H H' k imgs [Hin|Hin]%elem_of_app; auto. Qed.

Lemma collecting_update w w' :
  collecting w ->
  (forall l, l ∈ message_listeners w' -> l ∈ message_listeners w) ->
  extends (outputImages w) (outputImages w') ->
  (forall t, t ∈ inflight w' -> t ∈ inflight w \/ on_course (outputImages w') t) ->
  (outcome w' = Fulfilled ->
     outcome w = Fulfilled \/ covered (outputs history) (outputImages w')) ->
  collecting w'.
Proof.
  intros (Hl & Hs & Ht & Hf) Hl' He Ht' Hf'. repeat split.
  - intros l H. apply Hl. by apply Hl'.
  - by eapply sound_extends.
  - intros t H. destruct (Ht' t H) as [Hin|Hon]; [|done].
    eapply on_course_extends; [by apply Ht|done].
  - intros H. destruct (Hf' H) as [Ho|Hc]; [|done].
    eapply covered_extends; [done|by apply Hf|done].
Qed.

Lemma populate_collecting i pre0 nodes w0 w :
  collecting w0 ->
  this w = this w0 -> inflight w = inflight w0 -> outcome w = outcome w0 ->
  extends (outputImages w0) (outputImages w) ->
  outputs history = pre0 ++ nodes -> covered pre0 (outputImages w) ->
  collecting (park i (try_catch (populate J nodes) w)).
Proof.
  intros Hc Hthis Hin Hout He E Hcov. rewrite try_catch_populate.
  destruct (next_fetch nodes) as [[[pre [[nodeId im] rs]] todo]|] eqn:En.
  - apply next_fetch_Some in En as [-> Hb].
    assert (Hsub : forall node, node ∈ pre -> node ∈ outputs history).
    { intros node H. rewrite E. apply elem_of_app; right. apply elem_of_app; by left. }
    apply (collecting_update w0); simpl; trivial.
    + by apply listeners_same.
    + eapply extends_trans; [done|]. by apply extends_fill.
    + rewrite Hin. intros t [->|H]%elem_of_insert_inv; [|by left].
      right. split; [done|]. exists (pre0 ++ pre), []. simpl.
      split; [by rewrite E, <- app_assoc|]. split; [done|].
      apply covered_app; [|by apply covered_fill].
      eapply covered_extends; [|done|by apply extends_fill].
      intros node H. rewrite E. apply elem_of_app; by left.
    + rewrite Hout. by left.
  - apply next_fetch_None in En.
    assert (Hsub : forall node, node ∈ nodes -> node ∈ outputs history).
    { intros node H. rewrite E. apply elem_of_app; by right. }
    set (w1 := set_outputImages (fill nodes (outputImages w)) w).
    destruct (resolve_fields (unregister J w1)) as (E1 & E2 & E3 & _).
    destruct (unregister_fields J w1) as (E4 & E5 & E6 & _).
    apply (collecting_update w0); simpl.
    + done.
    + intros l. rewrite message_listeners_set_inflight, (message_listeners_this _ _ E1).
      intros H%message_listeners_unregister.
      by rewrite <- (message_listeners_this w0 w Hthis).
    + rewrite E2, E5. simpl. eapply extends_trans; [done|]. by apply extends_fill.
    + rewrite E3, E6. simpl. rewrite Hin. intros t H%list_elem_of_delete_inv. by left.
    + intros _. right. rewrite E2, E5. simpl. rewrite E.
      apply covered_app; [|by apply covered_fill].
      eapply covered_extends; [|done|by apply extends_fill].
      intros node H. rewrite E. apply elem_of_app; by left.
Qed.

Lemma reject_collecting i err w :
  collecting w -> collecting (set_inflight (delete i (inflight w)) (reject err w)).
Proof.
  intros Hc. destruct (reject_fields err w) as (E1 & E2 & E3 & _).
  apply (collecting_update w); simpl; trivial.
  - intros l. by rewrite message_listeners_set_inflight, (message_listeners_this _ _ E1).
  - rewrite E2. apply extends_refl.
  - intros t H%list_elem_of_delete_inv. by left.
  - unfold reject. destruct (outcome w) eqn:Ho; simpl; rewrite ?Ho; try done. by left.
Qed.

Lemma deliver_collecting i r w :
  collecting w -> agrees w (http_reply i r) -> collecting (deliver i r w).
Proof.
  intros Hc Ha. simpl in Ha.
  destruct (inflight w !! i) as [t|] eqn:Hi; [|by rewrite deliver_None].
  assert (Hon : on_course (outputImages w) t).
  { apply Hc. by eapply list_elem_of_lookup_2. }
  rewrite (deliver_eq _ _ _ _ Hi).
  destruct t as [prompt|p|p todo nodeId acc im rest]; simpl in Hon; [done|..];
    destruct r as [status|q|res|data]; try done; try by apply reject_collecting.
  - subst p. rewrite Ha. apply (populate_collecting i [] _ w); trivial.
    + apply extends_refl.
    + intros k imgs H. by apply elem_of_nil in H.
  - destruct Hon as (-> & pre & done & E & -> & Hcov). subst data. simpl.
    change {| buffer := fetch im; image := im |} with (artifact im).
    assert (Eacc : (artifact <$> done) ++ [artifact im] = artifact <$> (done ++ [im])).
    { by rewrite fmap_app. }
    rewrite Eacc.
    assert (Hsub : forall node, node ∈ pre -> node ∈ outputs history).
    { intros node H. rewrite E. apply elem_of_app; by left. }
    destruct rest as [|im' rest'].
    + assert (Hnode : (nodeId, {| images := Some (done ++ [im]) |}) ∈ outputs history).
      { rewrite E. apply elem_of_app; right; left. }
      apply (populate_collecting i (pre ++ [(nodeId, {| images := Some (done ++ [im]) |})]) _ w);
        simpl; trivial.
      * by apply extends_insert.
      * by rewrite E, <- app_assoc.
      * apply covered_app.
        -- eapply covered_extends; [done|done|]. by apply extends_insert.
        -- intros k imgs H. apply list_elem_of_singleton in H. simplify_eq.
           by rewrite lookup_insert_eq.
    + apply (collecting_update w); simpl; trivial.
      * apply extends_refl.
      * intros t [->|H]%elem_of_insert_inv; [|by left].
        right. split; [done|]. exists pre, (done ++ [im]).
        split; [by rewrite E, <- app_assoc|]. done.
      * by left.
Qed.

Lemma aside_collecting w w' : collecting w -> aside w w' -> collecting w'.
Proof.
  intros Hc (Hthis & Ho & Hin & _ & Hout).
  apply (collecting_update w); trivial.
  - intros l. by rewrite (message_listeners_this _ _ Hthis).
  - rewrite Ho. apply extends_refl.
  - rewrite Hin. by left.
  - intros H. left. destruct Hout as [E|(_ & e & E)]; congruence.
Qed.

Lemma spawned_collecting w w' : collecting w -> spawned J w w' -> collecting w'.
Proof.
  intros Hc (Hthis & Ho & Hout & n & Hin & _).
  apply (collecting_update w); trivial.
  - intros l. by rewrite (message_listeners_this _ _ Hthis).
  - rewrite Ho. apply extends_refl.
  - rewrite Hin. intros t [H|H%elem_of_replicate_inv]%elem_of_app; [by left|]. right. by subst.
  - rewrite Hout. by left.
Qed.

Lemma step_collecting w ev : collecting w -> agrees w ev -> collecting (step w ev).
Proof.
  intros Hc Ha. destruct ev as [| |err|data isBinary|i r].
  1-3: apply (aside_collecting w); [done|]; by apply step_not_frame_aside.
  - destruct (step_frame_cases J data isBinary w (proj1 Hc)) as [H|(_ & _ & H)].
    + by apply (aside_collecting w).
    + by apply (spawned_collecting w).
  - by apply deliver_collecting.
Qed.

Lemma run_collecting w evs : collecting w -> served w evs -> collecting (run w evs).
Proof.
  revert w. induction evs as [|ev evs IH]; intros w Hc Hs; [done|].
  destruct Hs as [Ha Hs]. simpl. apply IH; [by apply step_collecting|done].
Qed.

Lemma listening_collecting w : listening J w -> collecting w.
Proof.
  intros Hl. destruct (listening_tracks J w Hl) as [Hls _].
  destruct Hl as (_ & Hi & Ho & He). repeat split.
  - done.
  - intros k v. by rewrite He, lookup_empty.
  - rewrite Hi. by intros t H%elem_of_nil.
  - by rewrite Ho.
Qed.

End Served.

Lemma untouched_refl w : untouched w w.
Proof. by unfold untouched. Qed.

Lemma untouched_trans w1 w2 w3 : untouched w1 w2 -> untouched w2 w3 -> untouched w1 w3.
Proof.
  intros (A1 & A2 & A3 & A4 & A5) (B1 & B2 & B3 & B4 & B5).
  unfold untouched. by rewrite B1, B2, B3, B4, B5.
Qed.

Lemma call_not_message_untouched l ev w : not_a_frame ev -> untouched w (call l ev w).
Proof.
  intros Hev. destruct l, ev; simpl; try apply untouched_refl; try done.
  - unfold untouched, resolve_opened; simpl. by destruct (opened w).
  - unfold untouched, reject_opened; simpl. by destruct (opened w).
Qed.

Lemma step_socket_untouched ev w :
  not_a_frame ev -> (forall i r, ev <> http_reply i r) -> untouched w (step w ev).
Proof.
  intros Hm Hr. destruct ev; try (by destruct (Hr i r)); try done; unfold step, emit; simpl;
    (destruct (ws (this w)); [|apply untouched_refl]);
    (apply (fold_left_preorder untouched); [apply untouched_refl|apply untouched_trans|]);
    intros; by apply call_not_message_untouched.
Qed.

Lemma listening_untouched J w w' : untouched w w' -> listening J w -> listening J w'.
Proof.
  intros (A1 & A2 & A3 & A4 & A5) (Hl & Hi & Ho & He).
  unfold listening. by rewrite A1, A2, A3, A5.
Qed.

Lemma unlogged_untouched w w' : unlogged w' = unlogged w -> untouched w w'.
Proof.
  intros H. unfold untouched.
  change (this w') with (this (unlogged w')). change (outputImages w') with (outputImages (unlogged w')).
  change (inflight w') with (inflight (unlogged w')). change (sent w') with (sent (unlogged w')).
  change (outcome w') with (outcome (unlogged w')). by rewrite H.
Qed.

Lemma listening_listens J w : listening J w -> listens J w.
Proof. intros H. by destruct (listening_tracks J w H). Qed.

Lemma step_harmless J w ev : listening J w -> harmless J ev -> untouched w (step w ev).
Proof.
  intros Hl Hh. destruct ev as [| |err|data isBinary|i r].
  1-3: by apply step_socket_untouched.
  - apply unlogged_untouched.
    by apply (step_irrelevant J (data, isBinary)); [apply listening_listens|].
  - simpl. rewrite deliver_None; [apply untouched_refl|].
    destruct Hl as (_ & -> & _). done.
Qed.

Lemma run_harmless J w evs : listening J w -> Forall (harmless J) evs -> untouched w (run w evs).
Proof.
  revert w. induction evs as [|ev evs IH]; intros w Hl Hh; [apply untouched_refl|].
  apply Forall_cons in Hh as [Hev Hh]. simpl.
  pose proof (step_harmless J w ev Hl Hev) as Hu.
  eapply untouched_trans; [exact Hu|]. apply IH; [|done]. by eapply listening_untouched.
Qed.


Lemma registered_ws_on name l sock :
  registered name (ws_on name l sock) = registered name sock ++ [l].
Proof.
  unfold registered, ws_on; simpl. rewrite filter_app, fmap_app.
  rewrite filter_cons_True by done. done.
Qed.

(** [connect] leaves a client without activations idle. *)
Lemma connect_idle w : inflight w = [] -> idle (connect w).
Proof.
  intros Hi. unfold idle, connect, disconnect. destruct (ws (this w)); simpl; by rewrite Hi.
Qed.

(** [getImages] reaches [listening] as soon as the job has been accepted. *)
Lemma getImages_listening prompt queue w :
  idle w ->
  listening (prompt_id queue) (step (getImages prompt w) (http_reply 0 (queue_ok queue))).
Proof.
  intros [Hl Hi]. unfold getImages. simpl. rewrite Hl.
  unfold queuePrompt, bind, read, axios, modify; simpl. rewrite Hi. simpl.
  unfold deliver; simpl. unfold try_catch, bind, modify, this_ws_on; simpl.
  rewrite Hl; simpl. unfold listening; simpl. done.
Qed.

Lemma completes_foreign J1 J2 data :
  J1 <> J2 -> completes J1 data = true -> irrelevant J2 (data, false) = true.
Proof.
  intros Hne. unfold completes, irrelevant. simpl.
  destruct data as [message|]; [|done].
  destruct (get message "type") as [e|type]; [done|].
  destruct (get message "data") as [e|messageData]; [done|].
  intros [Hty H]%andb_prop. rewrite Hty. simpl.
  destruct (get messageData "node") as [e|node]; [done|].
  destruct (get messageData "prompt_id") as [e|pid]; [done|].
  apply andb_prop in H as [_ H]. apply strict_eq_true in H as ->.
  simpl. apply negb_true_iff, String.eqb_neq. done.
Qed.

Lemma references_bare pre : Forall bare pre -> references pre = [].
Proof.
  induction 1 as [|[k out] pre [H|H] _ IH]; [done|..]; unfold references in *; simpl in *;
    rewrite H; simpl; done.
Qed.

Lemma references_app pre post : references (pre ++ post) = references pre ++ references post.
Proof. unfold references. by rewrite fmap_app, concat_app. Qed.

Lemma references_next nodes :
  references nodes =
    match next_fetch nodes with
    | Some (_, (_, image, rest), todo) => image :: rest ++ references todo
    | None => []
    end.
Proof.
  destruct (next_fetch nodes) as [[[pre [[n im] rs]] todo]|] eqn:E.
  - apply next_fetch_Some in E as [-> Hb].
    rewrite references_app, (references_bare pre Hb). done.
  - apply next_fetch_None in E. by apply references_bare.
Qed.

(** An activation parked alone at an image, with the promise pending, goes
    through the rest of its node once the artifacts arrive, and then through
    the remaining nodes if the loop does. *)
Lemma images_fulfil J history fetch todo nodeId :
  (forall w a, inflight w = [a] -> outcome w = Pending ->
     fulfils J history fetch (park 0 (try_catch (populate J todo) w))
       (image_replies fetch (references todo))) ->
  forall rest image acc w,
    inflight w = [await_getImage J todo nodeId acc image rest] -> outcome w = Pending ->
    fulfils J history fetch w (image_replies fetch (image :: rest ++ references todo)).
Proof.
  intros Hloop. induction rest as [|image' rest' IH]; intros image acc w Hi Hp.
  - assert (H : fulfils J history fetch (deliver 0 (image_ok (fetch image)) w)
                  (image_replies fetch (references todo))).
    { rewrite (deliver_eq 0 _ w (await_getImage J todo nodeId acc image [])); [|by rewrite Hi].
      cbv zeta. apply (Hloop _ (await_getImage J todo nodeId acc image [])); done. }
    destruct H as (Hs & Ho & Hin). split; [|by split].
    split; [|exact Hs]. simpl. by rewrite Hi.
  - assert (H : fulfils J history fetch (deliver 0 (image_ok (fetch image)) w)
                  (image_replies fetch (image' :: rest' ++ references todo))).
    { rewrite (deliver_eq 0 _ w (await_getImage J todo nodeId acc image (image' :: rest')));
        [|by rewrite Hi].
      cbv zeta. eapply IH; simpl; [by rewrite Hi|done]. }
    destruct H as (Hs & Ho & Hin). split; [|by split].
    split; [|exact Hs]. simpl. by rewrite Hi.
Qed.

Lemma populate_fulfils J history fetch n : forall nodes, length nodes <= n ->
  forall w a, inflight w = [a] -> outcome w = Pending ->
  fulfils J history fetch (park 0 (try_catch (populate J nodes) w))
    (image_replies fetch (references nodes)).
Proof.
  assert (Hend : forall nodes w a, inflight w = [a] -> outcome w = Pending ->
            fulfils J history fetch
              (park 0 (resolve (unregister J (set_outputImages (fill nodes (outputImages w)) w)), None))
              []).
  { intros nodes w a Hi Hp. split; [done|]. simpl.
    destruct (resolve_fields (unregister J (set_outputImages (fill nodes (outputImages w)) w)))
      as (_ & _ & -> & _).
    destruct (unregister_fields J (set_outputImages (fill nodes (outputImages w)) w))
      as (Eo & _ & -> & _).
    simpl. rewrite Hi. split; [|done]. unfold resolve. rewrite Eo. simpl. by rewrite Hp. }
  induction n as [|n IH]; intros nodes Hlen w a Hi Hp;
    rewrite try_catch_populate, references_next;
    destruct (next_fetch nodes) as [[[pre [[nodeId im] rs]] todo]|] eqn:E;
    try (by apply (Hend nodes w a)).
  - apply next_fetch_Some in E as [-> _]. rewrite length_app in Hlen. simpl in Hlen. lia.
  - apply next_fetch_Some in E as [-> _].
    eapply (images_fulfil J history fetch todo nodeId); simpl; [|by rewrite Hi|done].
    intros w1 a1. apply IH. rewrite length_app in Hlen. simpl in Hlen. lia.
Qed.

(** From a listening tracker, the completion event followed by the replies
    of the collection fulfils the promise. *)
Lemma collection_fulfils J history fetch data w :
  listening J w -> completes J data = true ->
  fulfils J history fetch w (ws_message data false :: collection J history fetch).
Proof.
  intros (Hw & Hi & Hp & _) Hc.
  assert (E : step w (ws_message data false) =
    set_inflight (inflight w ++ [await_getHistory J])
      (set_sent (sent w ++ [getHistory_request (this w) J])
         (set_logged (logged w ++ [Done_executing_prompt (VString J)]) w))).
  { rewrite step_message_emit, (listening_message_listeners J w Hw). cbn [fold_left].
    change (call connect_on_message (ws_message data false) w) with w.
    by rewrite (call_onMessage_completes _ _ _ Hc). }
  assert (H : fulfils J history fetch
                (deliver 0 (history_ok {[ J := history ]}) (step w (ws_message data false)))
                (image_replies fetch (references (outputs history)))).
  { rewrite E. rewrite (deliver_eq 0 _ _ (await_getHistory J)); [|simpl; by rewrite Hi].
    rewrite lookup_singleton_eq.
    eapply (populate_fulfils J history fetch _ _ (le_n _)); simpl; [by rewrite Hi|done]. }
  destruct H as (Hs & Ho & Hin). split; [|by split].
  split; [done|]. split; [|exact Hs].
  change (agrees J history fetch (step w (ws_message data false))
            (http_reply 0 (history_ok {[ J := history ]}))).
  unfold agrees. rewrite E. simpl. rewrite Hi. simpl. by rewrite lookup_singleton_eq.
Qed.

Lemma tracking0_listening : listening "abc123" tracking0.
Proof. crunch. Qed.

Example scenario_resolves :
  outcome (run tracking0 roundtrip0) = Fulfilled /\
  sent (run tracking0 roundtrip0) =
    [ axios_post "http://127.0.0.1:8188/prompt" (VObject []) "client";
      axios_get "http://127.0.0.1:8188/history/abc123" None;
      axios_get "http://127.0.0.1:8188/view" (Some a_png);
      axios_get "http://127.0.0.1:8188/view" (Some b_png) ] /\
  message_listeners (run tracking0 roundtrip0) = [connect_on_message].
Proof. crunch. Qed.

(** ** The claims *)



(** C2.  The tracker goes on after it has settled.  Once a frame that is not
    JSON has rejected the promise, [onMessage] is still registered, and the
    next completion event fetches the history record and an artifact.  And
    when two completion events arrive before the first collection is over,
    the history record is fetched twice, and the second activation still
    issues an artifact fetch after the promise was fulfilled.  The rejected
    tracker also goes on logging the completion events of other jobs. *)
Theorem settled_tracker_keeps_fetching :
  let completion := ws_message (progress VNull "abc123") false in
  let history := http_reply 0 (history_ok {[ "abc123" := history0 ]}) in
  let w1 := step tracking0 (ws_message None false) in
  let w2 := run w1 [completion; history] in
  let w3 := run tracking0 [completion; completion; history;
                           http_reply 0 (image_ok (fetch0 a_png));
                           http_reply 0 (image_ok (fetch0 b_png))] in
  let w4 := step w3 history in
  (outcome w1 = Rejected SyntaxError /\
   sent w2 = sent w1 ++ [ axios_get "http://127.0.0.1:8188/history/abc123" None;
                          axios_get "http://127.0.0.1:8188/view" (Some a_png) ] /\
   logged (step w1 (ws_message (progress VNull "other") false))
     = logged w1 ++ [Done_executing_prompt (VString "other")]) /\
  (outcome w3 = Fulfilled /\
   sent w3 = sent tracking0 ++ [ axios_get "http://127.0.0.1:8188/history/abc123" None;
                                 axios_get "http://127.0.0.1:8188/history/abc123" None;
                                 axios_get "http://127.0.0.1:8188/view" (Some a_png);
                                 axios_get "http://127.0.0.1:8188/view" (Some b_png) ] /\
   sent w4 = sent w3 ++ [ axios_get "http://127.0.0.1:8188/view" (Some a_png) ]).
Proof. crunch. Qed.

(** C3, as stated, fails: after the socket has closed, the promise of a
    listening tracker is pending, not rejected. *)
Lemma close_leaves_the_tracker_pending :
  outcome (step tracking0 ws_close) = Pending /\
  ~ (exists err, outcome (step tracking0 ws_close) = Rejected err).
Proof. split; [vm_compute; reflexivity|]. intros [err H]. vm_compute in H. discriminate. Qed.

Lemma step_close_logged J w :
  listening J w -> step w ws_close = set_logged (logged w ++ [Connection_closed]) w.
Proof. intros (Hw & _). unfold step, emit; simpl. by rewrite Hw. Qed.

(** C3, amended.  When the connection closes while the tracker of [J] is
    listening, the close is only logged, by the listener of [connect]: the
    tracker is not failed.  It is still listening and its promise still
    pending after the close and any events other than frames that follow, and
    no request has been sent. *)
Theorem close_is_only_logged (J : string) (w : World) (evs : list event) :
  listening J w ->
  Forall not_a_frame evs ->
  step w ws_close = set_logged (logged w ++ [Connection_closed]) w /\
  listening J (run w (ws_close :: evs)) /\
  outcome (run w (ws_close :: evs)) = Pending /\
  sent (run w (ws_close :: evs)) = sent w.
Proof.
  intros Hl Hf. split; [by apply (step_close_logged J)|].
  assert (Hh : Forall (harmless J) (ws_close :: evs)).
  { constructor; [done|]. eapply Forall_impl; [done|]. by intros []. }
  pose proof (run_harmless J w _ Hl Hh) as Hu.
  pose proof (listening_untouched J _ _ Hu Hl) as Hl'.
  split; [done|]. split; [apply Hl'|apply Hu].
Qed.

Lemma close_is_only_logged_witness :
  listening "abc123" tracking0 /\
  Forall not_a_frame [ws_error TypeError; http_reply 0 (failed None)] /\
  step tracking0 ws_close = set_logged (logged tracking0 ++ [Connection_closed]) tracking0 /\
  listening "abc123" (run tracking0 [ws_close; ws_error TypeError; http_reply 0 (failed None)]) /\
  outcome (run tracking0 [ws_close; ws_error TypeError; http_reply 0 (failed None)]) = Pending /\
  sent (run tracking0 [ws_close; ws_error TypeError; http_reply 0 (failed None)]) = sent tracking0.
Proof.
  assert (Hl : listening "abc123" tracking0) by crunch.
  assert (Hf : Forall not_a_frame [ws_error TypeError; http_reply 0 (failed None)]).
  { repeat constructor. }
  split; [exact Hl|]. split; [exact Hf|].
  exact (close_is_only_logged "abc123" tracking0 _ Hl Hf).
Defined.

(** A text frame that is not JSON rejects the promise with the [SyntaxError]
    of [JSON.parse], and does nothing else. *)
Lemma malformed_frame_rejects J w :
  listening J w ->
  step w (ws_message None false) = reject SyntaxError w.
Proof.
  intros (Hw & _). rewrite step_message_emit, (listening_message_listeners J w Hw). done.
Qed.

(** C4.  After a text frame that is not JSON the promise is rejected with
    the [SyntaxError], but [onMessage] is still registered on the socket;
    only the path that fulfils the promise removes it. *)
Theorem malformed_frame_keeps_the_listener :
  let w' := step tracking0 (ws_message None false) in
  outcome w' = Rejected SyntaxError /\
  message_listeners w' = [connect_on_message; onMessage "abc123"] /\
  message_listeners (run tracking0 roundtrip0) = [connect_on_message].
Proof. crunch. Qed.

(** C5.  When the fetch of an artifact fails while the promise is pending,
    the promise is rejected with the error of the request, which names the
    reference (filename, subfolder, type) that was asked for; the fetch is not
    retried, and whatever happens afterwards the promise stays rejected and
    nothing is returned to the caller, whatever [imagesOutput] held. *)
Theorem failed_fetch_fails_the_operation (w : World) (i : nat) (J : string)
    (todo : list (string * NodeOutput)) (nodeId : string)
    (imagesOutput : list ImageContainer) (image : ImageRef) (rest : list ImageRef)
    (status : option nat) (evs : list event) :
  inflight w !! i = Some (await_getImage J todo nodeId imagesOutput image rest) ->
  outcome w = Pending ->
  let w' := step w (http_reply i (failed status)) in
  outcome w' =
    Rejected (AxiosError
                (axios_get (protocol (this w) +:+ "://" +:+ serverAddress (this w) +:+ "/view")
                   (Some image)) status) /\
  sent w' = sent w /\
  outcome (run w' evs) = outcome w' /\
  returned (run w' evs) = None.
Proof.
  intros Hi Hp w'.
  assert (E : w' = set_inflight (delete i (inflight w))
                     (reject (AxiosError (getImage_request (this w) image) status) w)).
  { subst w'. change (step w (http_reply i (failed status))) with (deliver i (failed status) w).
    by rewrite (deliver_eq _ _ _ _ Hi). }
  assert (Ho : outcome w' = Rejected (AxiosError (getImage_request (this w) image) status)).
  { rewrite E. unfold reject. rewrite Hp. done. }
  split; [exact Ho|]. split; [rewrite E; simpl; apply reject_fields|].
  assert (Hk : outcome (run w' evs) = outcome w').
  { apply run_kept. by rewrite Ho. }
  split; [exact Hk|]. unfold returned. by rewrite Hk, Ho.
Qed.

Lemma failed_fetch_fails_the_operation_witness :
  inflight one_fetched !! 0 =
    Some (await_getImage "abc123" [("12", {| images := None |})] "9"
            [{| buffer := fetch0 a_png; image := a_png |}] b_png []) /\
  outcome one_fetched = Pending /\
  let w' := step one_fetched (http_reply 0 (failed (Some 500))) in
  outcome w' =
    Rejected (AxiosError
                (axios_get (protocol (this one_fetched) +:+ "://"
                              +:+ serverAddress (this one_fetched) +:+ "/view")
                   (Some b_png)) (Some 500)) /\
  sent w' = sent one_fetched /\
  outcome (run w' [ws_message (progress VNull "abc123") false]) = outcome w' /\
  returned (run w' [ws_message (progress VNull "abc123") false]) = None.
Proof.
  assert (Hi : inflight one_fetched !! 0 =
    Some (await_getImage "abc123" [("12", {| images := None |})] "9"
            [{| buffer := fetch0 a_png; image := a_png |}] b_png [])) by (vm_compute; reflexivity).
  assert (Hp : outcome one_fetched = Pending) by (vm_compute; reflexivity).
  split; [exact Hi|]. split; [exact Hp|].
  exact (failed_fetch_fails_the_operation one_fetched 0 _ _ _ _ _ _ (Some 500)
           [ws_message (progress VNull "abc123") false] Hi Hp).
Defined.

(** C6.  For distinct job identifiers [J1] and [J2], completion events for
    [J1] never resolve the tracker of [J2]: after any trace whose frames are
    all completion events for [J1], the tracker of [J2] is still listening,
    its promise is not fulfilled and it has sent no request. *)
Theorem foreign_completion_never_resolves (J1 J2 : string) (w : World) (evs : list event) :
  J1 <> J2 ->
  listening J2 w ->
  Forall (foreign_completion J1) evs ->
  listening J2 (run w evs) /\
  outcome (run w evs) <> Fulfilled /\
  sent (run w evs) = sent w.
Proof.
  intros Hne Hl Hf.
  assert (Hh : Forall (harmless J2) evs).
  { eapply Forall_impl; [done|]. intros [| |err|data isBinary|i r]; simpl; try done.
    intros [-> Hc]. by apply (completes_foreign J1). }
  pose proof (run_harmless J2 w _ Hl Hh) as Hu.
  pose proof (listening_untouched J2 _ _ Hu Hl) as Hl'.
  split; [done|]. split; [|apply Hu].
  destruct Hl' as (_ & _ & -> & _). done.
Qed.

Lemma foreign_completion_never_resolves_witness :
  "other" <> "abc123" /\
  listening "abc123" tracking0 /\
  Forall (foreign_completion "other")
    [ws_message (progress VNull "other") false; http_reply 0 (history_ok ∅)] /\
  listening "abc123"
    (run tracking0 [ws_message (progress VNull "other") false; http_reply 0 (history_ok ∅)]) /\
  outcome (run tracking0 [ws_message (progress VNull "other") false; http_reply 0 (history_ok ∅)])
    <> Fulfilled /\
  sent (run tracking0 [ws_message (progress VNull "other") false; http_reply 0 (history_ok ∅)])
    = sent tracking0.
Proof.
  assert (Hne : "other" <> "abc123") by discriminate.
  assert (Hl : listening "abc123" tracking0) by crunch.
  assert (Hf : Forall (foreign_completion "other")
                 [ws_message (progress VNull "other") false; http_reply 0 (history_ok ∅)]).
  { repeat constructor. }
  split; [exact Hne|]. split; [exact Hl|]. split; [exact Hf|].
  exact (foreign_completion_never_resolves "other" "abc123" tracking0 _ Hne Hl Hf).
Defined.

(** C7.  With a history record whose artifacts are served by a function of
    the reference, a fulfilled tracker holds, for every output node that lists
    images, exactly the listed references in the listed order, each paired
    with the content fetched under it.  The completion event followed by the
    replies of the collection is such a run: it fulfils the promise. *)
Theorem artifacts_keep_the_listed_order (J : string) (history : HistoryEntry)
    (fetch : ImageRef -> Buffer) (w : World) :
  NoDup (fst <$> outputs history) ->
  listening J w ->
  (forall evs,
     served J history fetch w evs ->
     outcome (run w evs) = Fulfilled ->
     forall nodeId imgs,
       (nodeId, {| images := Some imgs |}) ∈ outputs history ->
       outputImages (run w evs) !! nodeId
         = Some ((fun r => {| buffer := fetch r; image := r |}) <$> imgs)) /\
  (forall data, completes J data = true ->
     let evs := ws_message data false :: collection J history fetch in
     served J history fetch w evs /\ outcome (run w evs) = Fulfilled).
Proof.
  intros Hnd Hl. split.
  - intros evs Hs Hf nodeId imgs Hin.
    pose proof (run_collecting J history fetch Hnd w evs
                  (listening_collecting J history fetch w Hl) Hs) as (_ & _ & _ & Hc).
    by apply (Hc Hf).
  - intros data Hc evs.
    by destruct (collection_fulfils J history fetch data w Hl Hc) as (Hs & Ho & _).
Qed.

Lemma history0_distinct : NoDup (fst <$> outputs history0).
Proof. apply (bool_decide_unpack _). vm_compute. exact I. Qed.

Lemma roundtrip0_served : served "abc123" history0 fetch0 tracking0 roundtrip0.
Proof. vm_compute. repeat split; reflexivity. Qed.

Lemma artifacts_keep_the_listed_order_witness :
  NoDup (fst <$> outputs history0) /\
  listening "abc123" tracking0 /\
  (forall evs,
     served "abc123" history0 fetch0 tracking0 evs ->
     outcome (run tracking0 evs) = Fulfilled ->
     forall nodeId imgs,
       (nodeId, {| images := Some imgs |}) ∈ outputs history0 ->
       outputImages (run tracking0 evs) !! nodeId
         = Some ((fun r => {| buffer := fetch0 r; image := r |}) <$> imgs)) /\
  (forall data, completes "abc123" data = true ->
     let evs := ws_message data false :: collection "abc123" history0 fetch0 in
     served "abc123" history0 fetch0 tracking0 evs /\ outcome (run tracking0 evs) = Fulfilled).
Proof.
  assert (Hnd : NoDup (fst <$> outputs history0)).
  { apply (bool_decide_unpack _). vm_compute. exact I. }
  assert (Hl : listening "abc123" tracking0) by crunch.
  split; [exact Hnd|]. split; [exact Hl|].
  exact (artifacts_keep_the_listed_order "abc123" history0 fetch0 tracking0 Hnd Hl).
Defined.

(** The round trip of the specification: node ["9"] lists [a.png] and
    [b.png]; the result for ["9"] is those two artifacts in that order. *)
Example roundtrip_two_artifacts :
  outputImages (run tracking0 roundtrip0) !! "9" =
    Some [ {| buffer := fetch0 a_png; image := a_png |};
           {| buffer := fetch0 b_png; image := b_png |} ] /\
  (filename ∘ image <$> default [] (outputImages (run tracking0 roundtrip0) !! "9"))
    = ["a.png"; "b.png"].
Proof. crunch. Qed.



Example node_without_images_is_absent :
  outputImages (run tracking0 roundtrip0) !! "12" = None /\
  dom (outputImages (run tracking0 roundtrip0)) = {[ "9" ]}.
Proof. split; [crunch|]. apply (bool_decide_unpack _). vm_compute. exact I. Qed.



(** C10.  For an event of the progress variant that carries the tracked job
    identifier, completion is decided by the falsiness of [node]: a falsy
    value starts the history fetch, a truthy one leaves the state as it is;
    [null], [undefined], the empty string and [0] are falsy. *)
Theorem completion_is_falsiness_of_node (J : string) (w : World)
    (props messageData : list (string * value)) :
  listening J w ->
  own_property props "type" = VString "executing" ->
  own_property props "data" = VObject messageData ->
  own_property messageData "prompt_id" = VString J ->
  let node := own_property messageData "node" in
  let w' := step w (ws_message (Some (VObject props)) false) in
  completes J (Some (VObject props)) = negb (ToBoolean node) /\
  (ToBoolean node = false ->
     inflight w' = [await_getHistory J] /\
     sent w' = sent w ++ [getHistory_request (this w) J]) /\
  (ToBoolean node = true -> w' = w) /\
  ToBoolean VNull = false /\ ToBoolean VUndefined = false /\
  ToBoolean (VString "") = false /\ ToBoolean (VNumber (S754_zero false)) = false.
Proof.
  intros Hl Hty Hdata Hpid node w'.
  assert (Hc : completes J (Some (VObject props)) = negb (ToBoolean node)).
  { unfold completes. simpl. rewrite Hty, Hdata. simpl. rewrite Hpid. simpl.
    rewrite String.eqb_refl. fold node. by rewrite andb_true_r. }
  destruct Hl as (Hw & Hi & Ho & _).
  assert (Hstep : w' = call (onMessage J) (ws_message (Some (VObject props)) false) w).
  { subst w'. by rewrite step_message_emit, (listening_message_listeners J w Hw). }
  split; [exact Hc|]. split; [|split; [|done]].
  - intros Hn. rewrite Hn in Hc. rewrite Hstep, (call_onMessage_completes _ _ _ Hc). simpl.
    by rewrite Hi.
  - intros Hn. rewrite Hstep. unfold call, try_catch, onMessage_try, bind, lift, JSON_parse.
    simpl. rewrite Hty, Hdata. simpl. fold node. rewrite Hn. done.
Qed.

Lemma completion_is_falsiness_of_node_witness :
  listening "abc123" tracking0 /\
  (let props := [("type", VString "executing");
                 ("data", VObject [("node", VNumber (S754_zero false)); ("prompt_id", VString "abc123")])] in
   let messageData := [("node", VNumber (S754_zero false)); ("prompt_id", VString "abc123")] in
   let node := own_property messageData "node" in
   let w' := step tracking0 (ws_message (Some (VObject props)) false) in
   completes "abc123" (Some (VObject props)) = negb (ToBoolean node) /\
   (ToBoolean node = false ->
      inflight w' = [await_getHistory "abc123"] /\
      sent w' = sent tracking0 ++ [getHistory_request (this tracking0) "abc123"]) /\
   (ToBoolean node = true -> w' = tracking0) /\
   ToBoolean VNull = false /\ ToBoolean VUndefined = false /\
   ToBoolean (VString "") = false /\ ToBoolean (VNumber (S754_zero false)) = false).
Proof.
  assert (Hl : listening "abc123" tracking0) by crunch.
  split; [exact Hl|].
  exact (completion_is_falsiness_of_node "abc123" tracking0
           [("type", VString "executing");
            ("data", VObject [("node", VNumber (S754_zero false)); ("prompt_id", VString "abc123")])]
           [("node", VNumber (S754_zero false)); ("prompt_id", VString "abc123")]
           Hl eq_refl eq_refl eq_refl).
Defined.

(** ** Further properties of the code *)

Lemma unregister_this J w w' : this w' = this w -> this (unregister J w') = this (unregister J w).
Proof. intros H. unfold unregister, this_ws_off, modify; simpl. rewrite H. by destruct (ws (this w)). Qed.

Lemma images_collected J fetch todo nodeId :
  (forall w a, inflight w = [a] -> outcome w = Pending ->
     collected J w (getImage_request (this w) <$> references todo)
       (run (park 0 (try_catch (populate J todo) w)) (image_replies fetch (references todo)))) ->
  forall rest image acc w,
    inflight w = [await_getImage J todo nodeId acc image rest] -> outcome w = Pending ->
    collected J w (getImage_request (this w) <$> (rest ++ references todo))
      (run w (image_replies fetch (image :: rest ++ references todo))).
Proof.
  intros Hloop. induction rest as [|image' rest' IH]; intros image acc w Hi Hp.
  - change (run w (image_replies fetch (image :: [] ++ references todo)))
      with (run (deliver 0 (image_ok (fetch image)) w) (image_replies fetch (references todo))).
    rewrite (deliver_eq 0 _ w (await_getImage J todo nodeId acc image [])); [|by rewrite Hi].
    cbv zeta.
    destruct (Hloop (set_outputImages
                (<[nodeId := acc ++ [{| buffer := fetch image; image := image |}]]> (outputImages w)) w)
                (await_getImage J todo nodeId acc image []) Hi Hp) as (Ho & Hin & Ht & Hs).
    repeat split; [exact Ho|exact Hin|rewrite Ht; by apply unregister_this|by rewrite Hs].
  - change (run w (image_replies fetch (image :: (image' :: rest') ++ references todo)))
      with (run (deliver 0 (image_ok (fetch image)) w)
              (image_replies fetch (image' :: rest' ++ references todo))).
    rewrite (deliver_eq 0 _ w (await_getImage J todo nodeId acc image (image' :: rest')));
      [|by rewrite Hi].
    cbv zeta.
    edestruct IH as (Ho & Hin & Ht & Hs); [| |repeat split; [exact Ho|exact Hin|..]].
    + simpl. by rewrite Hi.
    + done.
    + rewrite Ht. by apply unregister_this.
    + rewrite Hs. simpl. by rewrite <- app_assoc.
Qed.

Lemma populate_collected J fetch n : forall nodes, length nodes <= n ->
  forall w a, inflight w = [a] -> outcome w = Pending ->
  collected J w (getImage_request (this w) <$> references nodes)
    (run (park 0 (try_catch (populate J nodes) w)) (image_replies fetch (references nodes))).
Proof.
  assert (Hend : forall nodes w a, inflight w = [a] -> outcome w = Pending ->
            collected J w []
              (park 0 (resolve (unregister J (set_outputImages (fill nodes (outputImages w)) w)), None))).
  { intros nodes w a Hi Hp. unfold collected. simpl.
    destruct (resolve_fields (unregister J (set_outputImages (fill nodes (outputImages w)) w)))
      as (-> & _ & -> & -> & _).
    destruct (unregister_fields J (set_outputImages (fill nodes (outputImages w)) w))
      as (Eo & _ & -> & -> & _).
    simpl. rewrite Hi, app_nil_r. repeat split; try done.
    - unfold resolve. rewrite Eo. simpl. by rewrite Hp.
    - by apply unregister_this. }
  induction n as [|n IH]; intros nodes Hlen w a Hi Hp;
    rewrite try_catch_populate, references_next;
    destruct (next_fetch nodes) as [[[pre [[nodeId im] rs]] todo]|] eqn:E;
    try (by apply (Hend nodes w a)).
  - apply next_fetch_Some in E as [-> _]. rewrite length_app in Hlen. simpl in Hlen. lia.
  - apply next_fetch_Some in E as [-> _].
    edestruct (images_collected J fetch todo nodeId) as (Ho & Hin & Ht & Hs);
      [| | |repeat split; [exact Ho|exact Hin|..]].
    + intros w1 a1. apply IH. rewrite length_app in Hlen. simpl in Hlen. lia.
    + simpl. by rewrite Hi.
    + done.
    + rewrite Ht. by apply unregister_this.
    + rewrite Hs. simpl. by rewrite <- app_assoc.
Qed.

Lemma detached_step w ev : detached w -> untouched w (step w ev) /\ detached (step w ev).
Proof.
  intros [Hl Hi].
  assert (Hu : untouched w (step w ev)).
  { destruct ev as [| |err|data isBinary|i r].
    1-3: by apply step_socket_untouched.
    - rewrite step_message_emit.
      apply (fold_left_preorder untouched); [apply untouched_refl|apply untouched_trans|].
      intros l w' Hin. rewrite (Hl l Hin). apply untouched_refl.
    - simpl. rewrite deliver_None; [apply untouched_refl|by rewrite Hi]. }
  split; [done|]. destruct Hu as (E1 & _ & E3 & _). split.
  - intros l. rewrite (message_listeners_this _ _ E1). apply Hl.
  - by rewrite E3.
Qed.

Lemma detached_run w evs : detached w -> untouched w (run w evs) /\ detached (run w evs).
Proof.
  revert w. induction evs as [|ev evs IH]; intros w Hd; [split; [apply untouched_refl|done]|].
  destruct (detached_step w ev Hd) as [Hu Hd']. destruct (IH _ Hd') as [Hu' Hd''].
  split; [|done]. by eapply untouched_trans.
Qed.

Lemma unregister_listening J w :
  ws (this w) = Some (ws_on ev_message (onMessage J) connected_socket) ->
  ws (this (unregister J w)) = Some connected_socket.
Proof.
  intros H. unfold unregister, this_ws_off, modify; simpl. rewrite H. simpl.
  unfold ws_off, ws_on, connected_socket; simpl. f_equal. f_equal.
  unfold reverse; simpl. rewrite decide_True by done. done.
Qed.

Lemma connected_detached w : ws (this w) = Some connected_socket -> inflight w = [] -> detached w.
Proof.
  intros Hw Hi. split; [|done]. unfold message_listeners. rewrite Hw.
  change (registered ev_message connected_socket) with [connect_on_message].
  by intros l H%list_elem_of_singleton.
Qed.

(** X1.  A settled promise stays as it is: whatever events follow, the
    outcome of [getImages] is the one it settled with, and a rejected call
    never hands over a collection. *)
Theorem outcome_settles_once (w : World) (evs : list event) :
  outcome w <> Pending ->
  outcome (run w evs) = outcome w /\
  (forall err, outcome w = Rejected err -> returned (run w evs) = None).
Proof.
  intros Hp. pose proof (run_kept w evs Hp) as E. split; [done|].
  intros err He. unfold returned. by rewrite E, He.
Qed.

Lemma collection_collected J history fetch data w :
  listening J w -> completes J data = true ->
  collected J w
    (getHistory_request (this w) J :: (getImage_request (this w) <$> references (outputs history)))
    (run w (ws_message data false :: collection J history fetch)).
Proof.
  intros (Hw & Hi & Hp & _) Hc.
  assert (E : step w (ws_message data false) =
    set_inflight (inflight w ++ [await_getHistory J])
      (set_sent (sent w ++ [getHistory_request (this w) J])
         (set_logged (logged w ++ [Done_executing_prompt (VString J)]) w))).
  { rewrite step_message_emit, (listening_message_listeners J w Hw). cbn [fold_left].
    change (call connect_on_message (ws_message data false) w) with w.
    by rewrite (call_onMessage_completes _ _ _ Hc). }
  change (run w (ws_message data false :: collection J history fetch))
    with (run (deliver 0 (history_ok {[ J := history ]}) (step w (ws_message data false)))
            (image_replies fetch (references (outputs history)))).
  rewrite E. rewrite (deliver_eq 0 _ _ (await_getHistory J)); [|simpl; by rewrite Hi].
  rewrite lookup_singleton_eq.
  edestruct (populate_collected J fetch _ (outputs history) (le_n _)) as (Ho & Hin & Ht & Hs);
    [| |repeat split; [exact Ho|exact Hin|..]].
  - simpl. by rewrite Hi.
  - done.
  - rewrite Ht. by apply unregister_this.
  - rewrite Hs. simpl. by rewrite <- app_assoc.
Qed.

(** X2.  On the path that fulfils the promise the tracker takes itself off
    the stream: after the completion event and the replies of the collection
    only the listener of [connect] is left, nothing is parked, and no later
    event changes anything but the log and the promise of [connect]. *)
Theorem fulfilled_tracker_is_detached (J : string) (history : HistoryEntry)
    (fetch : ImageRef -> Buffer) (data : RawData) (w : World) (evs : list event) :
  listening J w ->
  completes J data = true ->
  let w' := run w (ws_message data false :: collection J history fetch) in
  outcome w' = Fulfilled /\
  message_listeners w' = [connect_on_message] /\
  inflight w' = [] /\
  untouched w' (run w' evs).
Proof.
  intros Hl Hc w'.
  destruct (collection_collected J history fetch data w Hl Hc) as (Ho & Hi & Ht & _).
  fold w' in Ho, Hi, Ht.
  assert (Hw : ws (this w') = Some connected_socket).
  { rewrite Ht. apply unregister_listening. apply Hl. }
  split; [done|]. split; [unfold message_listeners; by rewrite Hw|]. split; [done|].
  apply detached_run. by apply connected_detached.
Qed.


Lemma submitted_step w ev :
  ws (this w) = Some connected_socket -> not_a_reply ev -> untouched w (step w ev).
Proof.
  intros Hw Hev. destruct ev as [| |err|data isBinary|i r]; try done.
  1-3: by apply step_socket_untouched.
  rewrite step_message_emit. unfold message_listeners. rewrite Hw.
  change (registered ev_message connected_socket) with [connect_on_message].
  apply untouched_refl.
Qed.

Lemma submitted_run w evs :
  ws (this w) = Some connected_socket -> Forall not_a_reply evs -> untouched w (run w evs).
Proof.
  revert w. induction evs as [|ev evs IH]; intros w Hw Hf; [apply untouched_refl|].
  apply Forall_cons in Hf as [Hev Hf].
  pose proof (submitted_step w ev Hw Hev) as Hu.
  eapply untouched_trans; [exact Hu|]. apply IH; [|done].
  destruct Hu as (-> & _). done.
Qed.

(** X4.  [onMessage] is registered only when the server has answered the
    submission: frames that arrive before that, a completion event for the
    job among them, are not seen by the tracker, which afterwards listens
    with nothing fetched. *)
Theorem frames_before_the_answer_are_missed (prompt : Prompt) (queue : QueuePromptResult)
    (w : World) (evs : list event) :
  idle w ->
  Forall not_a_reply evs ->
  listening (prompt_id queue) (run (getImages prompt w) (evs ++ [http_reply 0 (queue_ok queue)])).
Proof.
  intros [Hw Hi] Hf. rewrite run_snoc.
  assert (Hg : ws (this (getImages prompt w)) = Some connected_socket /\
               inflight (getImages prompt w) = [await_queuePrompt prompt] /\
               outcome (getImages prompt w) = Pending).
  { unfold getImages. simpl. rewrite Hw. simpl. by rewrite Hi. }
  destruct Hg as (Hgw & Hgi & Hgo).
  destruct (submitted_run _ evs Hgw Hf) as (E1 & E2 & E3 & E4 & E5).
  set (w1 := run (getImages prompt w) evs) in *.
  simpl. rewrite (deliver_eq 0 _ w1 (await_queuePrompt prompt)); [|by rewrite E3, Hgi].
  unfold listening, this_ws_on, modify; simpl. rewrite E1, Hgw. simpl.
  rewrite E3, Hgi, E5, Hgo. done.
Qed.

(** X5.  When the submission fails, [getImages] rejects with the error of
    the POST, exactly that one request was sent, no listener is registered,
    and no later event has an effect on the call. *)
Theorem failed_submission_rejects (prompt : Prompt) (status : option nat)
    (w : World) (evs : list event) :
  idle w ->
  let w' := step (getImages prompt w) (http_reply 0 (failed status)) in
  outcome w' = Rejected (AxiosError (queuePrompt_request (this w) prompt) status) /\
  sent w' = sent w ++ [queuePrompt_request (this w) prompt] /\
  this w' = this w /\
  inflight w' = [] /\
  untouched w' (run w' evs).
Proof.
  intros [Hw Hi] w'.
  assert (E : w' = set_inflight []
                (reject (AxiosError (queuePrompt_request (this w) prompt) status)
                   (set_inflight [await_queuePrompt prompt]
                      (set_sent (sent w ++ [queuePrompt_request (this w) prompt])
                         (set_outcome Pending w))))).
  { subst w'. unfold getImages. simpl. rewrite Hw. simpl. rewrite Hi. done. }
  rewrite E. unfold reject. simpl. do 4 (split; [done|]).
  apply detached_run. by apply connected_detached.
Qed.

Lemma completion_step J data w :
  listening J w -> completes J data = true ->
  step w (ws_message data false) =
    set_inflight [await_getHistory J]
      (set_sent (sent w ++ [getHistory_request (this w) J])
         (set_logged (logged w ++ [Done_executing_prompt (VString J)]) w)).
Proof.
  intros (Hw & Hi & _) Hc.
  rewrite step_message_emit, (listening_message_listeners J w Hw). cbn [fold_left].
  change (call connect_on_message (ws_message data false) w) with w.
  rewrite (call_onMessage_completes _ _ _ Hc). by rewrite Hi.
Qed.

(** X6.  When the history reply has no entry for the job, the promise is
    rejected with the [TypeError] of reading [outputs] of [undefined]; no
    artifact is requested and [onMessage] stays on the socket. *)
Theorem history_without_the_job_rejects (J : string) (data : RawData)
    (res : gmap string HistoryEntry) (w : World) :
  listening J w ->
  completes J data = true ->
  res !! J = None ->
  let w' := run w [ws_message data false; http_reply 0 (history_ok res)] in
  outcome w' = Rejected TypeError /\
  sent w' = sent w ++ [getHistory_request (this w) J] /\
  inflight w' = [] /\
  message_listeners w' = [connect_on_message; onMessage J].
Proof.
  intros Hl Hc Hres w'. subst w'.
  change (run w [ws_message data false; http_reply 0 (history_ok res)])
    with (deliver 0 (history_ok res) (step w (ws_message data false))).
  rewrite (completion_step J data w Hl Hc).
  rewrite (deliver_eq 0 _ _ (await_getHistory J)); [|done].
  rewrite Hres. destruct Hl as (Hw & Hi & Hp & _).
  unfold reject. simpl. rewrite Hp. simpl.
  repeat split. unfold message_listeners. simpl. by rewrite Hw.
Qed.

(** X7.  When the history request fails, the promise is rejected with the
    error of that request; no artifact is requested and [onMessage] stays on
    the socket. *)
Theorem failed_history_fetch_rejects (J : string) (data : RawData)
    (status : option nat) (w : World) :
  listening J w ->
  completes J data = true ->
  let w' := run w [ws_message data false; http_reply 0 (failed status)] in
  outcome w' = Rejected (AxiosError (getHistory_request (this w) J) status) /\
  sent w' = sent w ++ [getHistory_request (this w) J] /\
  inflight w' = [] /\
  message_listeners w' = [connect_on_message; onMessage J].
Proof.
  intros Hl Hc w'. subst w'.
  change (run w [ws_message data false; http_reply 0 (failed status)])
    with (deliver 0 (failed status) (step w (ws_message data false))).
  rewrite (completion_step J data w Hl Hc).
  rewrite (deliver_eq 0 _ _ (await_getHistory J)); [|done].
  destruct Hl as (Hw & Hi & Hp & _).
  unfold reject. simpl. rewrite Hp. simpl.
  repeat split. unfold message_listeners. simpl. by rewrite Hw.
Qed.


Lemma quiet_run J evs : forall w,
  listens J w -> inflight w = [] ->
  (forall data, ws_message data false ∈ evs -> completes J data = false) ->
  aside w (run w evs).
Proof.
  induction evs as [|ev evs IH]; intros w Hl Hi Hn; [apply aside_refl|].
  assert (Ha : aside w (step w ev)).
  { destruct ev as [| |err|data isBinary|i r].
    1-3: by apply step_not_frame_aside.
    - destruct (step_frame_cases J data isBinary w Hl) as [H|(-> & Hc & _)]; [done|].
      rewrite Hn in Hc; [done|left].
    - simpl. rewrite deliver_None; [apply aside_refl|by rewrite Hi]. }
  eapply aside_trans; [exact Ha|]. destruct Ha as (E1 & _ & E3 & _).
  apply IH.
  - intros l. rewrite (message_listeners_this _ _ E1). apply Hl.
  - by rewrite E3.
  - intros data Hin. apply Hn. by right.
Qed.

(** X9.  Until a completion event for its job arrives, a listening tracker
    sends no request, parks no activation and assigns no result, whatever
    else is delivered; it may only be rejected. *)
Theorem no_request_before_completion (J : string) (w : World) (evs : list event) :
  listening J w ->
  (forall data, ws_message data false ∈ evs -> completes J data = false) ->
  sent (run w evs) = sent w /\
  inflight (run w evs) = [] /\
  outputImages (run w evs) = ∅ /\
  this (run w evs) = this w /\
  outcome (run w evs) <> Fulfilled.
Proof.
  intros Hl Hn.
  destruct (quiet_run J evs w (listening_listens J w Hl) (proj1 (proj2 Hl)) Hn)
    as (E1 & E2 & E3 & E4 & E5).
  destruct Hl as (_ & Hi & Hp & He).
  rewrite E1, E2, E3, E4, Hi, He. repeat split.
  destruct E5 as [E5|(_ & err & E5)]; rewrite E5; [by rewrite Hp|done].
Qed.

Lemma next_fetch_no_images nodes :
  Forall (fun node => images (snd node) = None) nodes ->
  next_fetch nodes = None /\ forall o, fill nodes o = o.
Proof.
  induction 1 as [|[k out] nodes H _ [IH1 IH2]]; [done|]. simpl in *.
  rewrite H, IH1. split; [done|]. intros o. apply IH2.
Qed.

(** X10.  A history record in which no output node has images fulfils the
    promise at the history reply: the collection is empty, no artifact is
    requested and the listener is removed. *)
Theorem history_without_images_resolves_empty (J : string) (data : RawData)
    (res : gmap string HistoryEntry) (history : HistoryEntry) (w : World) :
  listening J w ->
  completes J data = true ->
  res !! J = Some history ->
  Forall (fun node => images (snd node) = None) (outputs history) ->
  let w' := run w [ws_message data false; http_reply 0 (history_ok res)] in
  returned w' = Some ∅ /\
  sent w' = sent w ++ [getHistory_request (this w) J] /\
  inflight w' = [] /\
  message_listeners w' = [connect_on_message].
Proof.
  intros Hl Hc Hres Hno w'. subst w'.
  change (run w [ws_message data false; http_reply 0 (history_ok res)])
    with (deliver 0 (history_ok res) (step w (ws_message data false))).
  rewrite (completion_step J data w Hl Hc).
  rewrite (deliver_eq 0 _ _ (await_getHistory J)); [|done].
  rewrite Hres, try_catch_populate.
  destruct (next_fetch_no_images _ Hno) as [-> Hfill]. rewrite Hfill.
  destruct Hl as (Hw & Hi & Hp & He).
  set (w1 := set_outputImages _ _).
  change (park 0 (resolve (unregister J w1), None))
    with (set_inflight (delete 0 (inflight (resolve (unregister J w1)))) (resolve (unregister J w1))).
  destruct (resolve_fields (unregister J w1)) as (E1 & E2 & E3 & E4 & _).
  destruct (unregister_fields J w1) as (F1 & F2 & F3 & F4 & _).
  assert (Ho : outcome (resolve (unregister J w1)) = Fulfilled).
  { unfold resolve. rewrite F1. subst w1. simpl. by rewrite Hp. }
  assert (Hws : ws (this (unregister J w1)) = Some connected_socket).
  { by apply unregister_listening. }
  split; [|split; [|split]].
  - unfold returned. simpl. rewrite Ho, E2, F2. subst w1. simpl. by rewrite He.
  - simpl. rewrite E4, F4. done.
  - simpl. rewrite E3, F3. done.
  - rewrite message_listeners_set_inflight. unfold message_listeners. by rewrite E1, Hws.
Qed.

Section SaveImages.
Variable join : string -> string -> string.
Variable refused : string -> bool.
Variable outputDir : string.

Local Abbreviation path_of := (fun img : ImageContainer => join outputDir (filename (image img))).

Lemma save_node_app imgs imgs' fs :
  save_node join refused outputDir (imgs ++ imgs') fs =
    match save_node join refused outputDir imgs fs with
    | written fs' => save_node join refused outputDir imgs' fs'
    | write_failed path fs' => write_failed path fs'
    end.
Proof.
  revert fs. induction imgs as [|img imgs IH]; intros fs; simpl; [done|].
  unfold writeFile. destruct (refused _); [done|]. apply IH.
Qed.

Lemma saveImages_flat response fs :
  saveImages join refused response outputDir fs =
    save_node join refused outputDir (artifacts response) fs.
Proof.
  revert fs. induction response as [|[k imgs] response IH]; intros fs; [done|].
  unfold artifacts. simpl. fold (artifacts response). rewrite save_node_app.
  destruct (save_node join refused outputDir imgs fs); [apply IH|done].
Qed.

Lemma save_node_written imgs fs :
  Forall (fun img => refused (path_of img) = false) imgs ->
  save_node join refused outputDir imgs fs = written (disk_after join outputDir imgs fs).
Proof.
  revert fs. induction imgs as [|img imgs IH]; intros fs Hf; [done|].
  apply Forall_cons in Hf as [Hw Hf]. simpl in *. unfold writeFile. rewrite Hw. by apply IH.
Qed.

Lemma save_node_refused pre img post fs :
  Forall (fun img => refused (path_of img) = false) pre ->
  refused (path_of img) = true ->
  save_node join refused outputDir (pre ++ img :: post) fs =
    write_failed (path_of img) (disk_after join outputDir pre fs).
Proof.
  intros Hpre Hr. rewrite save_node_app, (save_node_written pre fs Hpre). simpl.
  unfold writeFile. simpl in Hr. by rewrite Hr.
Qed.

Lemma disk_after_lookup imgs fs path :
  disk_after join outputDir imgs fs !! path =
    match last_at join outputDir path imgs with
    | Some img => Some (buffer img)
    | None => fs !! path
    end.
Proof.
  unfold disk_after, last_at. induction imgs as [|img imgs IH] using rev_ind; [done|].
  rewrite fold_left_app, filter_app. simpl.
  destruct (decide (join outputDir (filename (image img)) = path)) as [E|E].
  - rewrite filter_cons_True, filter_nil by done. rewrite last_snoc, E. apply lookup_insert_eq.
  - rewrite filter_cons_False, filter_nil, app_nil_r by done.
    rewrite lookup_insert_ne by done. apply IH.
Qed.

End SaveImages.





(** X11.  When no write is refused, [saveImages] writes every artifact to
    [join outputDir filename]; a file holds the content of the last artifact
    written to its path (node and subfolder play no part in the path), and
    paths no artifact names keep their content. *)
Theorem saveImages_last_write_wins (join : string -> string -> string)
    (refused : string -> bool) (response : list (string * list ImageContainer))
    (outputDir : string) (fs : gmap string Buffer) :
  Forall (fun img => refused (join outputDir (filename (image img))) = false) (artifacts response) ->
  exists fs',
    saveImages join refused response outputDir fs = written fs' /\
    forall path,
      fs' !! path =
        match last_at join outputDir path (artifacts response) with
        | Some img => Some (buffer img)
        | None => fs !! path
        end.
Proof.
  intros Hw. exists (disk_after join outputDir (artifacts response) fs). split.
  - rewrite saveImages_flat. by apply save_node_written.
  - intros path. apply disk_after_lookup.
Qed.

(** X12.  [saveImages] stops at the first write that is refused: it fails
    with that path, the artifacts before it are on disk, and those after it
    are not written. *)
Theorem saveImages_stops_at_the_first_refusal (join : string -> string -> string)
    (refused : string -> bool) (response : list (string * list ImageContainer))
    (outputDir : string) (fs : gmap string Buffer)
    (pre : list ImageContainer) (img : ImageContainer) (post : list ImageContainer) :
  artifacts response = pre ++ img :: post ->
  Forall (fun img => refused (join outputDir (filename (image img))) = false) pre ->
  refused (join outputDir (filename (image img))) = true ->
  exists fs',
    saveImages join refused response outputDir fs
      = write_failed (join outputDir (filename (image img))) fs' /\
    forall path,
      fs' !! path =
        match last_at join outputDir path pre with
        | Some img' => Some (buffer img')
        | None => fs !! path
        end.
Proof.
  intros E Hpre Hr. exists (disk_after join outputDir pre fs). split.
  - rewrite saveImages_flat, E. by apply save_node_refused.
  - intros path. apply disk_after_lookup.
Qed.


Lemma disarmed_run ts : forall s,
  timeoutId s = false ->
  loop (session_run s ts) = run (loop s) (loop_events ts) /\
  timeouts (session_run s ts) = timeouts s /\
  timeoutId (session_run s ts) = false.
Proof.
  induction ts as [|t ts IH]; intros s Hd; [done|].
  destruct t as [ev|]; simpl.
  - destruct (IH (session_step s (loop_event ev))) as (E1 & E2 & E3).
    { simpl. rewrite Hd. destruct ev; try done. by destruct (open_listener_runs _). }
    done.
  - rewrite Hd. by apply IH.
Qed.

(** X14.  Once the socket has opened, the promise of [connect] is fulfilled
    and the timer is cleared: from then on the timer never fires, [onTimeout]
    is never called, and the session is the event loop alone. *)
Theorem open_in_time_disarms_the_timer (timeout : option Z) (callback : bool)
    (w : World) (ts : list tick) :
  let s := session_step (connect_with timeout callback w) (loop_event ws_open) in
  opened (loop s) = Fulfilled /\
  ws (this (loop s)) = Some connected_socket /\
  loop (session_run s ts) = run (loop s) (loop_events ts) /\
  timeouts (session_run s ts) = 0.
Proof.
  intros s.
  assert (Hd : timeoutId s = false) by done.
  destruct (disarmed_run ts s Hd) as (E1 & E2 & _).
  split; [|split; [|split; [exact E1|exact E2]]].
  - subst s. simpl. unfold emit, connect. simpl. done.
  - subst s. simpl. unfold emit, connect. simpl. done.
Qed.


(** X16.  A socket error before the open rejects the promise of [connect]
    but does not clear the timer: when it fires, [this.ws] is dropped and
    [onTimeout] is called, while the promise keeps the error it was rejected
    with. *)
Theorem error_leaves_the_timer_armed (t : Z) (callback : bool) (w : World) (err : error) :
  t <> 0%Z ->
  let s := session_run (connect_with (Some t) callback w) [loop_event (ws_error err); timer_fires] in
  opened (loop s) = Rejected err /\
  ws (this (loop s)) = None /\
  timeouts s = (if callback then 1 else 0).
Proof.
  intros Ht s.
  assert (Ha : negb (t =? 0)%Z = true).
  { by apply negb_true_iff, Z.eqb_neq. }
  subst s. unfold session_run, connect_with, arms. simpl. rewrite Ha.
  unfold on_timer, connect, disconnect, emit. simpl.
  destruct (ws (this w)); simpl; by destruct callback.
Qed.

(** X17.  Without a timeout, or with a timeout of [0], [connect] arms no
    timer: the session is the event loop alone and [onTimeout] is never
    called. *)
Theorem no_timer_without_a_timeout (timeout : option Z) (callback : bool)
    (w : World) (ts : list tick) :
  timeout = None \/ timeout = Some 0%Z ->
  loop (session_run (connect_with timeout callback w) ts) = run (connect w) (loop_events ts) /\
  timeouts (session_run (connect_with timeout callback w) ts) = 0.
Proof.
  intros H.
  assert (Hd : timeoutId (connect_with timeout callback w) = false).
  { by destruct H as [-> | ->]. }
  by destruct (disarmed_run ts _ Hd) as (E1 & E2 & _).
Qed.

(** X18.  With a consistent server the collection handed to the caller
    depends on the history record alone: any two fulfilled runs, however the
    events and replies are interleaved, return the same collection. *)
Theorem result_is_independent_of_the_schedule (J : string) (history : HistoryEntry)
    (fetch : ImageRef -> Buffer) (w1 w2 : World) (evs1 evs2 : list event)
    (r1 r2 : gmap string (list ImageContainer)) :
  NoDup (fst <$> outputs history) ->
  listening J w1 -> listening J w2 ->
  served J history fetch w1 evs1 -> served J history fetch w2 evs2 ->
  returned (run w1 evs1) = Some r1 ->
  returned (run w2 evs2) = Some r2 ->
  r1 = r2.
Proof.
  intros Hnd Hl1 Hl2 Hs1 Hs2 Hr1 Hr2.
  pose proof (run_collecting J history fetch Hnd w1 evs1
                (listening_collecting J history fetch w1 Hl1) Hs1) as (_ & Hsound1 & _ & Hc1).
  pose proof (run_collecting J history fetch Hnd w2 evs2
                (listening_collecting J history fetch w2 Hl2) Hs2) as (_ & Hsound2 & _ & Hc2).
  unfold returned in Hr1, Hr2.
  destruct (outcome (run w1 evs1)); try done. destruct (outcome (run w2 evs2)); try done.
  injection Hr1 as <-. injection Hr2 as <-.
  specialize (Hc1 eq_refl). specialize (Hc2 eq_refl).
  apply map_eq. intros k.
  destruct (outputImages (run w1 evs1) !! k) as [v|] eqn:E1.
  - destruct (Hsound1 _ _ E1) as (imgs & Hin & ->). symmetry. by apply Hc2.
  - destruct (outputImages (run w2 evs2) !! k) as [v|] eqn:E2; [|done].
    destruct (Hsound2 _ _ E2) as (imgs & Hin & ->). by rewrite (Hc1 _ _ Hin) in E1.
Qed.

(** X19.  [disconnect] twice is [disconnect] once, and a [getImages] after
    it is rejected as not connected: nothing is sent and nothing is parked. *)
Theorem getImages_after_disconnect (prompt : Prompt) (w : World) :
  disconnect (disconnect w) = disconnect w /\
  outcome (getImages prompt (disconnect w)) =
    Rejected (Error "WebSocket client is not connected. Please call connect() before interacting.") /\
  sent (getImages prompt (disconnect w)) = sent w /\
  inflight (getImages prompt (disconnect w)) = inflight w.
Proof.
  unfold getImages, disconnect. destruct (ws (this w)) eqn:E; simpl; rewrite ?E; simpl; done.
Qed.

Lemma outcome_settles_once_witness :
  outcome (step tracking0 (ws_message None false)) <> Pending /\
  outcome (run (step tracking0 (ws_message None false)) roundtrip0)
    = outcome (step tracking0 (ws_message None false)) /\
  (forall err, outcome (step tracking0 (ws_message None false)) = Rejected err ->
     returned (run (step tracking0 (ws_message None false)) roundtrip0) = None).
Proof.
  assert (H : outcome (step tracking0 (ws_message None false)) <> Pending).
  { intros E. vm_compute in E. discriminate. }
  split; [exact H|].
  exact (outcome_settles_once (step tracking0 (ws_message None false)) roundtrip0 H).
Defined.

Lemma fulfilled_tracker_is_detached_witness :
  listening "abc123" tracking0 /\
  completes "abc123" done0 = true /\
  let w' := run tracking0 (ws_message done0 false :: collection "abc123" history0 fetch0) in
  outcome w' = Fulfilled /\
  message_listeners w' = [connect_on_message] /\
  inflight w' = [] /\
  untouched w' (run w' [ws_message done0 false; ws_close]).
Proof.
  assert (Hl : listening "abc123" tracking0) by crunch.
  assert (Hc : completes "abc123" done0 = true) by reflexivity.
  split; [exact Hl|]. split; [exact Hc|].
  exact (fulfilled_tracker_is_detached "abc123" history0 fetch0 done0 tracking0
           [ws_message done0 false; ws_close] Hl Hc).
Defined.


Lemma frames_before_the_answer_are_missed_witness :
  idle connected0 /\
  Forall not_a_reply [ws_message done0 false; ws_close] /\
  listening "abc123"
    (run (getImages (VObject []) connected0)
       ([ws_message done0 false; ws_close] ++ [http_reply 0 (queue_ok {| prompt_id := "abc123" |})])).
Proof.
  assert (Hi : idle connected0) by crunch.
  assert (Hf : Forall not_a_reply [ws_message done0 false; ws_close]) by repeat constructor.
  split; [exact Hi|]. split; [exact Hf|].
  exact (frames_before_the_answer_are_missed (VObject []) {| prompt_id := "abc123" |}
           connected0 _ Hi Hf).
Defined.

Lemma failed_submission_rejects_witness :
  idle connected0 /\
  let w' := step (getImages (VObject []) connected0) (http_reply 0 (failed (Some 500))) in
  outcome w' = Rejected (AxiosError (queuePrompt_request (this connected0) (VObject [])) (Some 500)) /\
  sent w' = sent connected0 ++ [queuePrompt_request (this connected0) (VObject [])] /\
  this w' = this connected0 /\
  inflight w' = [] /\
  untouched w' (run w' [ws_message done0 false]).
Proof.
  assert (Hi : idle connected0) by crunch.
  split; [exact Hi|].
  exact (failed_submission_rejects (VObject []) (Some 500) connected0 [ws_message done0 false] Hi).
Defined.

Lemma history_without_the_job_rejects_witness :
  listening "abc123" tracking0 /\
  completes "abc123" done0 = true /\
  (∅ : gmap string HistoryEntry) !! "abc123" = None /\
  let w' := run tracking0 [ws_message done0 false; http_reply 0 (history_ok ∅)] in
  outcome w' = Rejected TypeError /\
  sent w' = sent tracking0 ++ [getHistory_request (this tracking0) "abc123"] /\
  inflight w' = [] /\
  message_listeners w' = [connect_on_message; onMessage "abc123"].
Proof.
  assert (Hl : listening "abc123" tracking0) by crunch.
  assert (Hc : completes "abc123" done0 = true) by reflexivity.
  assert (Hn : (∅ : gmap string HistoryEntry) !! "abc123" = None) by reflexivity.
  split; [exact Hl|]. split; [exact Hc|]. split; [exact Hn|].
  exact (history_without_the_job_rejects "abc123" done0 ∅ tracking0 Hl Hc Hn).
Defined.

Lemma failed_history_fetch_rejects_witness :
  listening "abc123" tracking0 /\
  completes "abc123" done0 = true /\
  let w' := run tracking0 [ws_message done0 false; http_reply 0 (failed None)] in
  outcome w' = Rejected (AxiosError (getHistory_request (this tracking0) "abc123") None) /\
  sent w' = sent tracking0 ++ [getHistory_request (this tracking0) "abc123"] /\
  inflight w' = [] /\
  message_listeners w' = [connect_on_message; onMessage "abc123"].
Proof.
  assert (Hl : listening "abc123" tracking0) by crunch.
  assert (Hc : completes "abc123" done0 = true) by reflexivity.
  split; [exact Hl|]. split; [exact Hc|].
  exact (failed_history_fetch_rejects "abc123" done0 None tracking0 Hl Hc).
Defined.


Lemma no_request_before_completion_witness :
  listening "abc123" tracking0 /\
  (forall data,
     ws_message data false ∈ [ws_message (progress (VString "3") "abc123") false; ws_close;
                              ws_message None false] ->
     completes "abc123" data = false) /\
  let evs := [ws_message (progress (VString "3") "abc123") false; ws_close;
              ws_message None false] in
  sent (run tracking0 evs) = sent tracking0 /\
  inflight (run tracking0 evs) = [] /\
  outputImages (run tracking0 evs) = ∅ /\
  this (run tracking0 evs) = this tracking0 /\
  outcome (run tracking0 evs) <> Fulfilled.
Proof.
  assert (Hl : listening "abc123" tracking0) by crunch.
  assert (Hn : forall data,
     ws_message data false ∈ [ws_message (progress (VString "3") "abc123") false; ws_close;
                              ws_message None false] ->
     completes "abc123" data = false).
  { intros data Hin.
    apply elem_of_cons in Hin as [E|Hin]; [by injection E as ->|].
    apply elem_of_cons in Hin as [E|Hin]; [discriminate|].
    apply list_elem_of_singleton in Hin. by injection Hin as ->. }
  split; [exact Hl|]. split; [exact Hn|].
  exact (no_request_before_completion "abc123" tracking0 _ Hl Hn).
Defined.

Lemma history_without_images_resolves_empty_witness :
  listening "abc123" tracking0 /\
  completes "abc123" done0 = true /\
  ({[ "abc123" := {| outputs := [("12", {| images := None |})] |} ]} : gmap string HistoryEntry)
    !! "abc123" = Some {| outputs := [("12", {| images := None |})] |} /\
  Forall (fun node => images (snd node) = None)
    (outputs {| outputs := [("12", {| images := None |})] |}) /\
  let w' := run tracking0
              [ws_message done0 false;
               http_reply 0 (history_ok {[ "abc123" := {| outputs := [("12", {| images := None |})] |} ]})] in
  returned w' = Some ∅ /\
  sent w' = sent tracking0 ++ [getHistory_request (this tracking0) "abc123"] /\
  inflight w' = [] /\
  message_listeners w' = [connect_on_message].
Proof.
  assert (Hl : listening "abc123" tracking0) by crunch.
  assert (Hc : completes "abc123" done0 = true) by reflexivity.
  assert (Hr : ({[ "abc123" := {| outputs := [("12", {| images := None |})] |} ]}
                  : gmap string HistoryEntry)
                 !! "abc123" = Some {| outputs := [("12", {| images := None |})] |}).
  { vm_compute. reflexivity. }
  assert (Hf : Forall (fun node => images (snd node) = None)
                 (outputs {| outputs := [("12", {| images := None |})] |})).
  { repeat constructor. }
  split; [exact Hl|]. split; [exact Hc|]. split; [exact Hr|]. split; [exact Hf|].
  exact (history_without_images_resolves_empty "abc123" done0 _ _ tracking0 Hl Hc Hr Hf).
Defined.

Lemma saveImages_last_write_wins_witness :
  Forall (fun img => (fun _ : string => false) (join0 "out" (filename (image img))) = false)
    (artifacts response0) /\
  exists fs',
    saveImages join0 (fun _ => false) response0 "out" ∅ = written fs' /\
    forall path,
      fs' !! path =
        match last_at join0 "out" path (artifacts response0) with
        | Some img => Some (buffer img)
        | None => (∅ : gmap string Buffer) !! path
        end.
Proof.
  assert (Hw : Forall (fun img => (fun _ : string => false) (join0 "out" (filename (image img))) = false)
                 (artifacts response0)) by repeat constructor.
  split; [exact Hw|].
  exact (saveImages_last_write_wins join0 (fun _ => false) response0 "out" ∅ Hw).
Defined.

Lemma saveImages_stops_at_the_first_refusal_witness :
  artifacts response0 = [artifact fetch0 a_png] ++ artifact fetch0 b_png :: [] /\
  Forall (fun img => String.eqb (join0 "out" (filename (image img))) "out/b.png" = false)
    [artifact fetch0 a_png] /\
  String.eqb (join0 "out" (filename (image (artifact fetch0 b_png)))) "out/b.png" = true /\
  exists fs',
    saveImages join0 (fun path => String.eqb path "out/b.png") response0 "out" ∅
      = write_failed (join0 "out" (filename (image (artifact fetch0 b_png)))) fs' /\
    forall path,
      fs' !! path =
        match last_at join0 "out" path [artifact fetch0 a_png] with
        | Some img' => Some (buffer img')
        | None => (∅ : gmap string Buffer) !! path
        end.
Proof.
  assert (E : artifacts response0 = [artifact fetch0 a_png] ++ artifact fetch0 b_png :: [])
    by reflexivity.
  assert (Hpre : Forall (fun img => String.eqb (join0 "out" (filename (image img))) "out/b.png" = false)
                   [artifact fetch0 a_png]) by repeat constructor.
  assert (Hr : String.eqb (join0 "out" (filename (image (artifact fetch0 b_png)))) "out/b.png" = true)
    by reflexivity.
  split; [exact E|]. split; [exact Hpre|]. split; [exact Hr|].
  exact (saveImages_stops_at_the_first_refusal join0 (fun path => String.eqb path "out/b.png")
           response0 "out" ∅ _ _ _ E Hpre Hr).
Defined.



Lemma error_leaves_the_timer_armed_witness :
  5000%Z <> 0%Z /\
  let s := session_run (connect_with (Some 5000%Z) true (boot client0))
             [loop_event (ws_error TypeError); timer_fires] in
  opened (loop s) = Rejected TypeError /\
  ws (this (loop s)) = None /\
  timeouts s = (if true then 1 else 0).
Proof.
  assert (H : 5000%Z <> 0%Z) by lia.
  split; [exact H|].
  exact (error_leaves_the_timer_armed 5000 true (boot client0) TypeError H).
Defined.

Lemma no_timer_without_a_timeout_witness :
  (Some 0%Z = None \/ Some 0%Z = Some 0%Z) /\
  loop (session_run (connect_with (Some 0%Z) true (boot client0)) [timer_fires; loop_event ws_open])
    = run (connect (boot client0)) (loop_events [timer_fires; loop_event ws_open]) /\
  timeouts (session_run (connect_with (Some 0%Z) true (boot client0)) [timer_fires; loop_event ws_open])
    = 0.
Proof.
  assert (H : Some 0%Z = None \/ Some 0%Z = Some 0%Z) by (right; reflexivity).
  split; [exact H|].
  exact (no_timer_without_a_timeout (Some 0%Z) true (boot client0)
           [timer_fires; loop_event ws_open] H).
Defined.

Lemma result_is_independent_of_the_schedule_witness :
  NoDup (fst <$> outputs history0) /\
  listening "abc123" tracking0 /\ listening "abc123" tracking0 /\
  served "abc123" history0 fetch0 tracking0 roundtrip0 /\
  served "abc123" history0 fetch0 tracking0
    (ws_message done0 false :: ws_message done0 false :: collection "abc123" history0 fetch0) /\
  returned (run tracking0 roundtrip0) = Some (outputImages (run tracking0 roundtrip0)) /\
  returned (run tracking0
              (ws_message done0 false :: ws_message done0 false :: collection "abc123" history0 fetch0))
    = Some (outputImages (run tracking0
              (ws_message done0 false :: ws_message done0 false :: collection "abc123" history0 fetch0))) /\
  outputImages (run tracking0 roundtrip0)
    = outputImages (run tracking0
              (ws_message done0 false :: ws_message done0 false :: collection "abc123" history0 fetch0)).
Proof.
  assert (Hnd : NoDup (fst <$> outputs history0)).
  { apply (bool_decide_unpack _). vm_compute. exact I. }
  assert (Hl : listening "abc123" tracking0) by crunch.
  assert (Hs1 : served "abc123" history0 fetch0 tracking0 roundtrip0).
  { vm_compute. repeat split; reflexivity. }
  assert (Hs2 : served "abc123" history0 fetch0 tracking0
    (ws_message done0 false :: ws_message done0 false :: collection "abc123" history0 fetch0)).
  { vm_compute. repeat split; reflexivity. }
  assert (Hr1 : returned (run tracking0 roundtrip0)
                = Some (outputImages (run tracking0 roundtrip0))) by crunch.
  assert (Hr2 : returned (run tracking0
              (ws_message done0 false :: ws_message done0 false :: collection "abc123" history0 fetch0))
    = Some (outputImages (run tracking0
              (ws_message done0 false :: ws_message done0 false :: collection "abc123" history0 fetch0))))
    by crunch.
  split; [exact Hnd|]. split; [exact Hl|]. split; [exact Hl|]. split; [exact Hs1|].
  split; [exact Hs2|]. split; [exact Hr1|]. split; [exact Hr2|].
  exact (result_is_independent_of_the_schedule "abc123" history0 fetch0 tracking0 tracking0
           _ _ _ _ Hnd Hl Hl Hs1 Hs2 Hr1 Hr2).
Defined.
